(** * rivamap: the modified multiscale singularity index

    A shallow embedding of [cne/singularity_index.py]: the filter bank
    [SingularityIndexFilters] and the multiscale pipeline [applyMMSI].

    Modelling choices.
    - Pixel values, [minScale] and the sigmas are real numbers ([R]), as
      Python floats; rounding, infinities and NaN of IEEE doubles are not
      modelled.  [nrScales], kernel sizes and shapes are integers.
    - A numpy array is a dtype, a shape and a flat row-major buffer.
      Element-wise operations work on the buffers; shapes are taken to
      agree wherever numpy combines two arrays.
    - The Python locals that hold arrays are references into an object
      store, so that two names bound to one array see each other's
      in-place updates; a local that was never assigned is unbound.
    - A call returns what it printed and either a value or the exception
      that stopped it.
    - [cv2.getGaussianKernel], [cv2.sepFilter2D], [cv2.resize] and
      [scipy.signal.fftconvolve] are library code.  The numbers they
      compute are parameters of the development; what the proofs need of
      them is stated as a hypothesis where it is used, and a small
      concrete backend shows these hypotheses consistent.  The two
      failures of the library that the code can reach are part of the
      model: [cv2.getGaussianKernel] raises [cv2.error] for a size that
      is not positive, and [cv2.resize] raises [cv2.error] for a
      destination size without pixels.  Images are taken to have at
      least one pixel wherever a result is claimed. *)

From Stdlib Require Import Reals Lra Lia ZArith String DecimalString.
From stdpp Require Import base list.

Open Scope R_scope.

(** ** Python scalars *)

Inductive exn : Type :=
  | ValueError (msg : string)
  | ZeroDivisionError (msg : string)
  | UnboundLocalError (name : string)
  | cv2_error (func : string).

(** The outcome of a Python call: an exception or a value. *)
Definition result (A : Type) : Type := exn + A.

Definition ret {A} (a : A) : result A := inr a.
Definition raise {A} (e : exn) : result A := inl e.
Definition rbind {A B} (m : result A) (k : A -> result B) : result B :=
  match m with
  | inl e => inl e
  | inr a => k a
  end.

Declare Scope result_scope.
Delimit Scope result_scope with result.
Notation "'let*' x ':=' m 'in' k" := (rbind m (fun x => k))
  (at level 10, x pattern, m at level 100, k at level 200) : result_scope.

(** [x > y] as numpy evaluates it, to a boolean. *)
Definition Rgtb (x y : R) : bool := if Rlt_dec y x then true else false.

(** Python's [int(x)] on a float: truncation towards zero. *)
Definition py_int (x : R) : Z :=
  if Rle_dec 0 x then Int_part x else (- Int_part (- x))%Z.

(** Python's [a / b] on floats. *)
Definition py_div (a b : R) : result R :=
  if Req_dec_T b 0 then raise (ZeroDivisionError "float division by zero")
  else ret (a / b).

(** Python's [str(n)] on an int. *)
Definition py_str (n : Z) : string := NilZero.string_of_int (Z.to_int n).

(** Python's [range(a, b)]. *)
Definition py_range (a b : Z) : list Z :=
  (fun i : nat => (a + Z.of_nat i)%Z) <$> seq 0 (Z.to_nat (b - a)).

(** [np.sqrt(2)**s] for a loop index [s >= 0]. *)
Definition sqrt2_pow (s : Z) : R := sqrt 2 ^ Z.to_nat s.

(** [np.arctan2(y, x)] on reals, by quadrant. *)
Definition arctan2 (y x : R) : R :=
  if Rlt_dec 0 x then atan (y / x)
  else if Rlt_dec x 0 then
    if Rle_dec 0 y then atan (y / x) + PI else atan (y / x) - PI
  else if Rlt_dec 0 y then PI / 2
  else if Rlt_dec y 0 then - (PI / 2)
  else 0.

(** ** numpy arrays *)

(** [float64] stands for every dtype other than the two unsigned ones the
    code tests for. *)
Inductive np_dtype : Type := uint8 | uint16 | float64.

Record ndarray : Type := mk_ndarray {
  dtype : np_dtype;
  shape : list Z;
  data : list R
}.

Definition ndim (a : ndarray) : nat := length (shape a).

Definition farray (sh : list Z) (d : list R) : ndarray :=
  {| dtype := float64; shape := sh; data := d |}.

(** Element-wise unary and binary operations; the result has the shape of
    the first operand. *)
Definition amap (f : R -> R) (a : ndarray) : ndarray :=
  farray (shape a) (f <$> data a).

Definition azip (f : R -> R -> R) (a b : ndarray) : ndarray :=
  farray (shape a) (zip_with f (data a) (data b)).

Definition aadd : ndarray -> ndarray -> ndarray := azip Rplus.
Definition asub : ndarray -> ndarray -> ndarray := azip Rminus.
Definition amul : ndarray -> ndarray -> ndarray := azip Rmult.
Definition adiv : ndarray -> ndarray -> ndarray := azip Rdiv.
Definition ascale (c : R) : ndarray -> ndarray := amap (Rmult c).
Definition asquare : ndarray -> ndarray := amap (fun x => x ^ 2).
Definition aneg : ndarray -> ndarray := amap Ropp.
Definition aabs : ndarray -> ndarray := amap Rabs.
Definition acos : ndarray -> ndarray := amap cos.
Definition asin : ndarray -> ndarray := amap sin.
Definition asqrt : ndarray -> ndarray := amap sqrt.
(** [c + a], [a / c], [a * c] and [a - c] for a scalar [c]. *)
Definition aplus_scalar (c : R) : ndarray -> ndarray := amap (Rplus c).
Definition adiv_scalar (a : ndarray) (c : R) : ndarray := amap (fun x => x / c) a.
Definition amul_scalar (a : ndarray) (c : R) : ndarray := amap (fun x => x * c) a.
Definition asub_scalar (a : ndarray) (c : R) : ndarray := amap (fun x => x - c) a.
(** [a.T] of a column or row vector: the buffer is unchanged. *)
Definition transpose (a : ndarray) : ndarray :=
  {| dtype := dtype a; shape := rev (shape a); data := data a |}.

Declare Scope array_scope.
Delimit Scope array_scope with A.
Bind Scope array_scope with ndarray.
Infix "+" := aadd : array_scope.
Infix "-" := asub : array_scope.
Infix "*" := amul : array_scope.
Infix "/" := adiv : array_scope.

(** Boolean masks: [a > b], [a > 0]. *)
Definition agt (a b : ndarray) : list bool := zip_with Rgtb (data a) (data b).
Definition agt0 (a : ndarray) : list bool := (fun x => Rgtb x 0) <$> data a.

(** [a[mask]]: the selected elements, in order. *)
Fixpoint compress (m : list bool) (d : list R) : list R :=
  match m, d with
  | true :: m', x :: d' => x :: compress m' d'
  | false :: m', _ :: d' => compress m' d'
  | _, _ => []
  end.

(** [a[mask] = vals]: the selected positions take the values, in order. *)
Fixpoint place (m : list bool) (vals d : list R) : list R :=
  match m, d with
  | true :: m', x :: d' =>
      match vals with
      | v :: vs => v :: place m' vs d'
      | [] => x :: place m' [] d'
      end
  | false :: m', x :: d' => x :: place m' vals d'
  | _, _ => d
  end.

(** [a[mask] = c] for a scalar [c]. *)
Fixpoint place_scalar (m : list bool) (c : R) (d : list R) : list R :=
  match m, d with
  | b :: m', x :: d' => (if b then c else x) :: place_scalar m' c d'
  | _, _ => d
  end.

Definition getitem_mask (a : ndarray) (m : list bool) : ndarray :=
  farray [Z.of_nat (length (compress m (data a)))] (compress m (data a)).

Definition setitem_mask (a : ndarray) (m : list bool) (vals : ndarray) : ndarray :=
  {| dtype := dtype a; shape := shape a; data := place m (data vals) (data a) |}.

Definition setitem_mask_scalar (a : ndarray) (m : list bool) (c : R) : ndarray :=
  {| dtype := dtype a; shape := shape a; data := place_scalar m c (data a) |}.

(** [np.meshgrid(xs, ys)]: [X[i][j] = xs[j]] and [Y[i][j] = ys[i]]. *)
Definition meshgrid (xs ys : list Z) : ndarray * ndarray :=
  let sh := [Z.of_nat (length ys); Z.of_nat (length xs)] in
  (farray sh (mjoin ((fun _ => IZR <$> xs) <$> ys)),
   farray sh (mjoin ((fun y => IZR <$> replicate (length xs) y) <$> ys))).

(** [col * col.T] for a column vector: the outer product. *)
Definition outer (col : ndarray) : ndarray :=
  let n := Z.of_nat (length (data col)) in
  farray [n; n] (mjoin ((fun gi => Rmult gi <$> data col) <$> data col)).

(** [np.linspace(-k, k, 2*k+1)] reshaped to one row, for [k >= 0]; the
    construction does not get here with a negative [k]. *)
Definition linspace_row (k : Z) : ndarray :=
  farray [1%Z; (2 * k + 1)%Z] (IZR <$> py_range (- k) (k + 1)).

(** ** The filter bank *)

Record SingularityIndexFilters : Type := {
  minScale : R;
  nrScales : Z;
  Gdebias : ndarray;
  G01d : ndarray;
  G20 : ndarray;
  G260 : ndarray;
  G2120 : ndarray;
  G0_a : ndarray;
  G1 : ndarray;
  isCreated : bool
}.

(** The kernels alone, without the two parameters. *)
Definition kernels (f : SingularityIndexFilters) : list ndarray :=
  [Gdebias f; G01d f; G20 f; G260 f; G2120 f; G0_a f; G1 f].

Definition default_minScale : R := 1.5.
Definition default_nrScales : Z := 15.

(** Sigmas and kernel half sizes of [_createFilters]. *)
Definition sigmad (minScale : R) : R := 5 * minScale.
Definition ksized (minScale : R) : Z := py_int (sigmad minScale * 3).
Definition sigma2 (minScale : R) : R := minScale.
Definition sigma1 (minScale : R) : R := minScale * 1.7754.
Definition ksize2 (minScale : R) : Z := (py_int (sigma2 minScale * 3) + 1)%Z.
Definition ksize1 (minScale : R) : Z := (py_int (sigma1 minScale * 3) + 1)%Z.

(** Steerable filter basis orientations. *)
Definition theta1 : R := 0.
Definition theta2 : R := PI / 3.
Definition theta3 : R := 2 * PI / 3.

Section FilterBank.

(** The coefficients of [cv2.getGaussianKernel(ksize, sigma)]. *)
Variable getGaussianKernel : Z -> R -> list R.

(** [cv2.getGaussianKernel(ksize, sigma)]: a column vector of [ksize]
    coefficients; the library raises [cv2.error] when [ksize] is not
    positive. *)
Definition cv2_getGaussianKernel (ksize : Z) (sigma : R) : result ndarray :=
  if (0 <? ksize)%Z then ret (farray [ksize; 1%Z] (getGaussianKernel ksize sigma))
  else raise (cv2_error "getGaussianKernel").

(** [X*np.cos(theta) - Y*np.sin(theta)] *)
Definition rotated_coordinate (X Y : ndarray) (theta : R) : ndarray :=
  (amul_scalar X (cos theta) - amul_scalar Y (sin theta))%A.

(** [(((u**2)/(sigma2**4)) - (1/(sigma2**2))) * G0] *)
Definition second_derivative (u : ndarray) (s2 : R) (G0 : ndarray)
  : result ndarray :=
  let q := adiv_scalar (asquare u) (s2 ^ 4) in
  (let* c := py_div 1 (s2 ^ 2) in
   ret (asub_scalar q c * G0)%A)%result.

Definition _createFilters (self_minScale : R) (self_nrScales : Z)
  : result SingularityIndexFilters :=
  (* Create the debiasing filter *)
  let sd := sigmad self_minScale in
  let kd := ksized self_minScale in
  (let* Gdebias := cv2_getGaussianKernel (2 * kd + 1) sd in
   (* Set sigma and kernel size for the second and first order derivatives *)
   let s2 := sigma2 self_minScale in
   let s1 := sigma1 self_minScale in
   let k2 := ksize2 self_minScale in
   let k1 := ksize1 self_minScale in
   (* Create a meshgrid for second order derivatives *)
   let XY := meshgrid (py_range (- k2) (k2 + 1)) (py_range (- k2) (k2 + 1)) in
   let u1 := rotated_coordinate XY.1 XY.2 theta1 in
   let u2 := rotated_coordinate XY.1 XY.2 theta2 in
   let u3 := rotated_coordinate XY.1 XY.2 theta3 in
   (* Create an isotropic Gaussian *)
   let* G01d := cv2_getGaussianKernel (2 * k2 + 1) s2 in
   let G0 := outer G01d in
   (* Compute second partial derivatives of Gaussian *)
   let* G20 := second_derivative u1 s2 G0 in
   let* G260 := second_derivative u2 s2 G0 in
   let* G2120 := second_derivative u3 s2 G0 in
   (* Create a separable basis filter for first partial derivative *)
   let x_1 := linspace_row k1 in
   let* G0_a := cv2_getGaussianKernel (2 * k1 + 1) s1 in
   let* inv_s1 := py_div 1 s1 in
   let G1 := (ascale (- (inv_s1 ^ 2)) x_1 * transpose G0_a)%A in
   ret {| minScale := self_minScale; nrScales := self_nrScales;
          Gdebias := Gdebias; G01d := G01d;
          G20 := G20; G260 := G260; G2120 := G2120;
          G0_a := G0_a; G1 := G1; isCreated := true |})%result.

(** [SingularityIndexFilters(minScale, nrScales)]: [__init__] stores the
    two parameters on the object and calls [_createFilters]. *)
Definition __init__ (minScale : R) (nrScales : Z)
  : result SingularityIndexFilters :=
  _createFilters minScale nrScales.

End FilterBank.

(** ** The interpreter state of [applyMMSI] *)

(** A reference to an array object. *)
Abbreviation loc := nat (only parsing).

(** The locals of [applyMMSI] that survive an iteration of the loop; [None]
    is a name that has not been assigned yet. *)
Record locals : Type := {
  psi_max : option loc;
  psi_sum : option loc;
  orient : option loc;
  widthMap : option loc;
  psi : option loc
}.

Record frame : Type := {
  I1 : ndarray;
  store : list ndarray;
  vars : locals;
  stdout : list string
}.

Definition no_locals : locals :=
  {| psi_max := None; psi_sum := None; orient := None;
     widthMap := None; psi := None |}.

Definition enter (img : ndarray) : frame :=
  {| I1 := img; store := []; vars := no_locals; stdout := [] |}.

Definition set_I1 (a : ndarray) (fr : frame) : frame :=
  {| I1 := a; store := store fr; vars := vars fr; stdout := stdout fr |}.
Definition set_store (h : list ndarray) (fr : frame) : frame :=
  {| I1 := I1 fr; store := h; vars := vars fr; stdout := stdout fr |}.
Definition set_vars (v : locals) (fr : frame) : frame :=
  {| I1 := I1 fr; store := store fr; vars := v; stdout := stdout fr |}.
Definition set_stdout (o : list string) (fr : frame) : frame :=
  {| I1 := I1 fr; store := store fr; vars := vars fr; stdout := o |}.

Definition bind_psi_max (l : loc) (v : locals) : locals :=
  {| psi_max := Some l; psi_sum := psi_sum v; orient := orient v;
     widthMap := widthMap v; psi := psi v |}.
Definition bind_psi_sum (l : loc) (v : locals) : locals :=
  {| psi_max := psi_max v; psi_sum := Some l; orient := orient v;
     widthMap := widthMap v; psi := psi v |}.
Definition bind_orient (l : loc) (v : locals) : locals :=
  {| psi_max := psi_max v; psi_sum := psi_sum v; orient := Some l;
     widthMap := widthMap v; psi := psi v |}.
Definition bind_widthMap (l : loc) (v : locals) : locals :=
  {| psi_max := psi_max v; psi_sum := psi_sum v; orient := orient v;
     widthMap := Some l; psi := psi v |}.
Definition bind_psi (l : loc) (v : locals) : locals :=
  {| psi_max := psi_max v; psi_sum := psi_sum v; orient := orient v;
     widthMap := widthMap v; psi := Some l |}.

Arguments set_I1 a fr /.
Arguments set_store h fr /.
Arguments set_vars v fr /.
Arguments set_stdout o fr /.
Arguments bind_psi_max l v /.
Arguments bind_psi_sum l v /.
Arguments bind_orient l v /.
Arguments bind_widthMap l v /.
Arguments bind_psi l v /.
Arguments enter img /.

(** Statements: a frame goes in; the frame as the statement left it comes
    out, with a value or the exception that stopped it. *)
Definition M (A : Type) : Type := frame -> frame * result A.

Definition retM {A} (a : A) : M A := fun fr => (fr, inr a).
Definition raiseM {A} (e : exn) : M A := fun fr => (fr, inl e).
Definition bindM {A B} (m : M A) (k : A -> M B) : M B :=
  fun fr =>
    match m fr with
    | (fr', inl e) => (fr', inl e)
    | (fr', inr a) => k a fr'
    end.

Declare Scope py_scope.
Delimit Scope py_scope with py.
Notation "'let*' x ':=' m 'in' k" := (bindM m (fun x => k))
  (at level 10, x pattern, m at level 100, k at level 200) : py_scope.
Notation "m ';;' k" := (bindM m (fun _ => k))
  (at level 100, k at level 200, right associativity) : py_scope.

Definition print (line : string) : M unit :=
  fun fr => (set_stdout (stdout fr ++ [line]) fr, inr tt).

Definition get_I1 : M ndarray := fun fr => (fr, inr (I1 fr)).
Definition assign_I1 (a : ndarray) : M unit := fun fr => (set_I1 a fr, inr tt).

(** A new array object; its reference is the next free index. *)
Definition alloc (a : ndarray) : M loc :=
  fun fr => (set_store (store fr ++ [a]) fr, inr (length (store fr))).

Definition empty_array : ndarray := farray [0%Z] [].

Definition deref (l : loc) : M ndarray :=
  fun fr => (fr, inr (default empty_array (store fr !! l))).

(** An in-place update of the object behind a reference. *)
Definition update (l : loc) (a : ndarray) : M unit :=
  fun fr => (set_store (<[l := a]> (store fr)) fr, inr tt).

(** Reading a local: [UnboundLocalError] when it was never assigned. *)
Definition name (x : string) (get : locals -> option loc) : M loc :=
  fun fr =>
    match get (vars fr) with
    | Some l => (fr, inr l)
    | None => (fr, inl (UnboundLocalError x))
    end.

Definition load (x : string) (get : locals -> option loc) : M ndarray :=
  (let* l := name x get in deref l)%py.

Definition assign (set : loc -> locals -> locals) (l : loc) : M unit :=
  fun fr => (set_vars (set l (vars fr)) fr, inr tt).

Arguments retM {A} a fr /.
Arguments raiseM {A} e fr /.
Arguments bindM {A B} m k fr /.
Arguments print line fr /.
Arguments get_I1 fr /.
Arguments assign_I1 a fr /.
Arguments alloc a fr /.
Arguments deref l fr /.
Arguments update l a fr /.
Arguments name x get fr /.
Arguments load x get fr /.
Arguments assign set l fr /.

(** [for s in scales: body(s)] *)
Fixpoint for_each (scales : list Z) (body : Z -> M unit) : M unit :=
  match scales with
  | [] => retM tt
  | s :: rest => (body s ;; for_each rest body)%py
  end.

(** ** The multiscale pipeline *)

Inductive interpolation : Type := INTER_NEAREST | INTER_CUBIC.

Definition unsupported_shape : exn :=
  ValueError "This function inputs only a singe channel image".

(** [I1.astype('float')/255] and [/65535] for the two unsigned dtypes. *)
Definition rescale_uint8 (a : ndarray) : ndarray :=
  if dtype a is uint8 then adiv_scalar a 255 else a.
Definition rescale_uint16 (a : ndarray) : ndarray :=
  if dtype a is uint16 then adiv_scalar a 65535 else a.
Definition normalize (a : ndarray) : ndarray :=
  rescale_uint16 (rescale_uint8 a).

(** [R, C = I1.shape] *)
Definition unpack_shape (a : ndarray) : result (Z * Z) :=
  match shape a with
  | [r; c] => ret (r, c)
  | [] => raise (ValueError "need more than 0 values to unpack")
  | [_] => raise (ValueError "need more than 1 value to unpack")
  | _ => raise (ValueError "too many values to unpack")
  end.

Definition lift {A} (r : result A) : M A := fun fr => (fr, r).
Arguments lift {A} r fr /.

(** A size [(width, height)] with at least one pixel. *)
Definition has_pixels (dsize : Z * Z) : bool :=
  (0 <? dsize.1)%Z && (0 <? dsize.2)%Z.

(** [(int(C/(np.sqrt(2)**s)), int(R/(np.sqrt(2)**s)))]: the size of the
    image at scale [s]. *)
Definition scaled_size (R C : Z) (s : Z) : Z * Z :=
  (py_int (IZR C / sqrt2_pow s), py_int (IZR R / sqrt2_pow s)).

(** The line one iteration of the loop prints:
    ["Processing scale: " + str(s)]. *)
Definition scale_line (s : Z) : string := "Processing scale: " ++ py_str s.

Section Pipeline.

(** [cv2.sepFilter2D(src, cv2.CV_64FC1, kernelX, kernelY,
    borderType=cv2.BORDER_REFLECT_101)] *)
Variable cv2_sepFilter2D : ndarray -> ndarray -> ndarray -> ndarray.
(** [fftconvolve(in1, in2, mode='same')] *)
Variable fftconvolve : ndarray -> ndarray -> ndarray.
(** The array [cv2.resize(src, (width, height), interpolation=...)]
    returns for a destination size that has pixels. *)
Variable resample : ndarray -> Z * Z -> interpolation -> ndarray.

(** [cv2.resize(src, (width, height), interpolation=...)]: the library
    raises [cv2.error] when the destination size has no pixel. *)
Definition cv2_resize (src : ndarray) (dsize : Z * Z) (interp : interpolation)
  : result ndarray :=
  if has_pixels dsize then ret (resample src dsize interp)
  else raise (cv2_error "resize").

(** The dominant local orientation from the three second order
    responses. *)
Definition orientation (J20 J260 J2120 : ndarray) : ndarray :=
  let Nr := ascale (sqrt 3)
              (asquare J260 - asquare J2120 + J20 * J260 - J20 * J2120)%A in
  let Dr := (ascale 2 (asquare J20) - asquare J260 - asquare J2120
             + J20 * J260 - ascale 2 (J260 * J2120) + J20 * J2120)%A in
  adiv_scalar (azip arctan2 Nr Dr) 2.

(** The second derivative along the estimated direction. *)
Definition steer_second (angles J20 J260 J2120 : ndarray) : ndarray :=
  let c := acos (ascale 2 angles) in
  let s := asin (ascale 2 angles) in
  let one_minus_c := amap (fun x => 1 - x) c in
  adiv_scalar
    (aplus_scalar 1 (ascale 2 c) * J20
     + (one_minus_c + ascale (sqrt 3) s) * J260
     + (one_minus_c - ascale (sqrt 3) s) * J2120)%A
    3.

(** Lines 113-147: the response and the orientation of one scale, at the
    resolution of that scale. *)
Definition scale_response (filters : SingularityIndexFilters) (img : ndarray)
  : ndarray * ndarray :=
  (* Debias the image *)
  let mu := cv2_sepFilter2D img (Gdebias filters) (transpose (Gdebias filters)) in
  let I := (img - mu)%A in
  (* Apply the second order derivative filters *)
  let J20 := fftconvolve I (G20 filters) in
  let J260 := fftconvolve I (G260 filters) in
  let J2120 := fftconvolve I (G2120 filters) in
  (* Compute the dominant local orientation *)
  let angles := orientation J20 J260 J2120 in
  (* Apply the first order derivative filters *)
  let J0u := cv2_sepFilter2D I (transpose (G1 filters)) (transpose (G0_a filters)) in
  let J90u := cv2_sepFilter2D I (G0_a filters) (G1 filters) in
  (* Compute 0th, 1st, and 2nd derivatives along the estimated direction *)
  let J0 := cv2_sepFilter2D I (G01d filters) (transpose (G01d filters)) in
  let J1 := (J0u * acos angles + J90u * asin angles)%A in
  let J2 := steer_second angles J20 J260 J2120 in
  (* Compute the singularity index for the current scale *)
  let psi_scale := (aabs J0 * J2 / aplus_scalar 1 (asquare (aabs J1)))%A in
  (* Suppress island response (channels have negative response) *)
  let psi_scale := setitem_mask_scalar psi_scale (agt0 psi_scale) 0 in
  let psi_scale := aneg psi_scale in
  (psi_scale, angles).

(** Lines 155-167: the update of the running maximum, sum, orientation,
    width and squared norm by the response [psi_scale] and the
    orientation [angles] of scale [s], both given by reference.  Every
    use of a name reads the object the name is bound to at that point. *)
Definition aggregate (filters : SingularityIndexFilters) (s : Z)
    (psi_scale angles : loc) : M unit :=
  (let bandwidth := minScale filters * sqrt2_pow s in
   if (s =? 0)%Z then
     (* psi_max = psi_scale; psi_sum = psi_scale; orient = angles *)
     assign bind_psi_max psi_scale ;;
     assign bind_psi_sum psi_scale ;;
     assign bind_orient angles ;;
     (* widthMap = filters.minScale * (np.sqrt(2)**s) * (psi_scale) *)
     let* r := deref psi_scale in
     let* w := alloc (ascale bandwidth r) in
     assign bind_widthMap w ;;
     (* psi = psi_scale**2 *)
     let* r := deref psi_scale in
     let* p := alloc (asquare r) in
     assign bind_psi p
   else
     (* idx = psi_scale > psi_max *)
     let* r := deref psi_scale in
     let* m := load "psi_max" psi_max in
     let idx := agt r m in
     (* psi_max[idx] = psi_scale[idx] *)
     let* r := deref psi_scale in
     let* lmax := name "psi_max" psi_max in
     let* m := deref lmax in
     update lmax (setitem_mask m idx (getitem_mask r idx)) ;;
     (* psi_sum = psi_sum + psi_scale *)
     let* sum := load "psi_sum" psi_sum in
     let* r := deref psi_scale in
     let* lsum := alloc (sum + r)%A in
     assign bind_psi_sum lsum ;;
     (* orient[idx] = angles[idx] *)
     let* a := deref angles in
     let* lorient := name "orient" orient in
     let* o := deref lorient in
     update lorient (setitem_mask o idx (getitem_mask a idx)) ;;
     (* widthMap = widthMap + filters.minScale * (np.sqrt(2)**s) * (psi_scale) *)
     let* w := load "widthMap" widthMap in
     let* r := deref psi_scale in
     let* lw := alloc (w + ascale bandwidth r)%A in
     assign bind_widthMap lw ;;
     (* psi = psi + psi_scale**2 *)
     let* p := load "psi" psi in
     let* r := deref psi_scale in
     let* lp := alloc (p + asquare r)%A in
     assign bind_psi lp)%py.

(** Lines 149-152: the response and the orientation of scale [s] are
    resized to [R] rows and [C] columns for element-wise comparison when
    [s > 0]. *)
Definition upsample (R C : Z) (s : Z) (psi_scale angles : ndarray)
  : result (ndarray * ndarray) :=
  if (0 <? s)%Z then
    (let* psi_scale := cv2_resize psi_scale (C, R) INTER_CUBIC in
     let* angles := cv2_resize angles (C, R) INTER_NEAREST in
     ret (psi_scale, angles))%result
  else ret (psi_scale, angles).

(** Lines 108-111: the image is downscaled to the current scale, which is
    faster than increasing the sigma. *)
Definition downscale (R C : Z) (s : Z) : M unit :=
  (if (0 <? s)%Z then
     let* img := get_I1 in
     let* small := lift (cv2_resize img (scaled_size R C s) INTER_CUBIC) in
     assign_I1 small
   else retM tt)%py.

(** Lines 106-167: one iteration of the loop over the scales. *)
Definition scale_pass (filters : SingularityIndexFilters) (R C : Z) (s : Z)
  : M unit :=
  (print (scale_line s) ;;
   downscale R C s ;;
   let* img := get_I1 in
   let* up := lift (upsample R C s (scale_response filters img).1
                      (scale_response filters img).2) in
   let* lpsi := alloc up.1 in
   let* langles := alloc up.2 in
   aggregate filters s lpsi langles)%py.

(** Scale [s] resizes to sizes that have pixels: nothing is resized at
    scale 0. *)
Definition fits (R C : Z) (s : Z) : Prop :=
  (0 < s)%Z ->
  has_pixels (scaled_size R C s) = true /\ has_pixels (C, R) = true.

(** The working image after [downscale], at a scale that fits. *)
Definition downscaled (R C : Z) (s : Z) (img : ndarray) : ndarray :=
  if (0 <? s)%Z then resample img (scaled_size R C s) INTER_CUBIC
  else img.

(** The response and the orientation after [upsample], at a scale that
    fits, from the working image at that scale. *)
Definition upsampled_response (filters : SingularityIndexFilters)
    (R C : Z) (s : Z) (img : ndarray) : ndarray * ndarray :=
  let '(psi_scale, angles) := scale_response filters img in
  if (0 <? s)%Z then
    (resample psi_scale (C, R) INTER_CUBIC,
     resample angles (C, R) INTER_NEAREST)
  else (psi_scale, angles).

(** The scale, response and orientation of every iteration of the loop
    over scales that fit, from the image the loop starts with. *)
Fixpoint scale_outputs (filters : SingularityIndexFilters) (R C : Z)
    (scales : list Z) (img : ndarray) : list (Z * ndarray * ndarray) :=
  match scales with
  | [] => []
  | s :: rest =>
      let img' := downscaled R C s img in
      (s, (upsampled_response filters R C s img').1,
          (upsampled_response filters R C s img').2)
      :: scale_outputs filters R C rest img'
  end.

(** Lines 169-172: the width estimate
    [widthMap[psi_sum>0] = widthMap[psi_sum>0] / psi_sum[psi_sum>0]], the
    norm [psi = np.sqrt(psi)] and the three results. *)
Definition finalize : M (ndarray * ndarray * ndarray) :=
  (let* w := load "widthMap" widthMap in
   let* sum := load "psi_sum" psi_sum in
   let quotient :=
     (getitem_mask w (agt0 sum) / getitem_mask sum (agt0 sum))%A in
   let* lw := name "widthMap" widthMap in
   let* w' := deref lw in
   let* sum' := load "psi_sum" psi_sum in
   update lw (setitem_mask w' (agt0 sum') quotient) ;;
   let* p := load "psi" psi in
   let* lp := alloc (asqrt p) in
   assign bind_psi lp ;;
   let* psi_out := load "psi" psi in
   let* width_out := load "widthMap" widthMap in
   let* orient_out := load "orient" orient in
   retM (psi_out, width_out, orient_out))%py.

(** Lines 105-172: the loop over the scales, then the final step. *)
Definition scales_then_finalize (filters : SingularityIndexFilters)
    (R C : Z) : M (ndarray * ndarray * ndarray) :=
  (for_each (py_range 0 (nrScales filters)) (scale_pass filters R C) ;;
   finalize)%py.

Definition applyMMSI_body (filters : SingularityIndexFilters)
  : M (ndarray * ndarray * ndarray) :=
  (let* img := get_I1 in
   assign_I1 (normalize img) ;;
   let* img := get_I1 in
   if (2 <? ndim img)%nat then raiseM unsupported_shape
   else
     let* RC := lift (unpack_shape img) in
     scales_then_finalize filters RC.1 RC.2)%py.

(** [applyMMSI(I1, filters)]: what was printed, and the three maps
    [(psi, widthMap, orient)] or the exception. *)
Definition applyMMSI (img : ndarray) (filters : SingularityIndexFilters)
  : list string * result (ndarray * ndarray * ndarray) :=
  let '(fr, r) := applyMMSI_body filters (enter img) in
  (stdout fr, r).

End Pipeline.

(** The cross-scale aggregation run on given scales, responses and
    orientations: what the loop does with the arrays of each scale once
    the filters have produced them. *)
Fixpoint aggregate_all (filters : SingularityIndexFilters)
    (passes : list (Z * ndarray * ndarray)) : M unit :=
  match passes with
  | [] => retM tt
  | (s, psi_scale, angles) :: rest =>
      (let* lpsi := alloc psi_scale in
       let* langles := alloc angles in
       aggregate filters s lpsi langles ;;
       aggregate_all filters rest)%py
  end.

(** The array a local is bound to, if it is bound. *)
Definition value_of (get : locals -> option loc) (fr : frame) : option ndarray :=
  l ← get (vars fr); store fr !! l.

(** What a statement leaves in memory, and how it ended. *)
Definition memory {A} (out : frame * result A)
  : list ndarray * locals * result A :=
  (store out.1, vars out.1, out.2).

(** The response of a scale in a list of passes. *)
Definition response_of (p : Z * ndarray * ndarray) : list R := data p.1.2.

(** The element-wise sum of the responses of all scales, at pixel [i]. *)
Definition sum_of_responses (passes : list (Z * ndarray * ndarray)) (i : nat) : R :=
  foldr Rplus 0 ((fun p => default 0 (response_of p !! i)) <$> passes).

(** The running maximum after scale 1: the response of scale 1 written
    over the response of scale 0 where it is greater. *)
Definition overtaken (r0 r1 : list R) : list R :=
  place (zip_with Rgtb r1 r0) (compress (zip_with Rgtb r1 r0) r1) r0.

Definition add_response (acc : list R) (p : Z * ndarray * ndarray) : list R :=
  zip_with Rplus acc (response_of p).

(** The running sum the aggregation computes. *)
Definition running_sum (passes : list (Z * ndarray * ndarray)) : list R :=
  match passes with
  | [] => []
  | [p0] => response_of p0
  | p0 :: p1 :: rest =>
      foldl add_response
        (zip_with Rplus (overtaken (response_of p0) (response_of p1))
           (response_of p1))
        rest
  end.

(** ** A small concrete backend

    Every filter is reduced to its overall gain and every resize to
    nearest-neighbour sampling.  These routines meet the assumptions made
    below on the library routines, and let the pipeline run on concrete
    arrays. *)
Module Backend.

(** The Gaussian coefficients [exp(-(i - (n-1)/2)^2 / (2 sigma^2))],
    scaled to sum to one. *)
Definition getGaussianKernel (n : Z) (sigma : R) : list R :=
  let w := (fun i : Z => exp (- (IZR i - (IZR n - 1) / 2) ^ 2 / (2 * sigma ^ 2)))
             <$> py_range 0 n in
  let total := foldr Rplus 0 w in
  (fun v => v / total) <$> w.

Definition gain (kernel : ndarray) : R := foldr Rplus 0 (data kernel).

Definition sepFilter2D (src kernelX kernelY : ndarray) : ndarray :=
  farray (shape src) ((fun v => v * (gain kernelX * gain kernelY)) <$> data src).

Definition fftconvolve (in1 in2 : ndarray) : ndarray :=
  farray (shape in1) ((fun v => v * gain in2) <$> data in1).

(** The flat index of the source pixel sampled for the destination pixel
    of flat index [k]. *)
Definition source_index (R C width height : Z) (k : nat) : nat :=
  let i := (Z.of_nat k / width)%Z in
  let j := (Z.of_nat k mod width)%Z in
  Z.to_nat ((i * R / height) * C + j * C / width)%Z.

Definition resize (src : ndarray) (dsize : Z * Z) (_ : interpolation)
  : ndarray :=
  match shape src with
  | [R; C] =>
      farray [dsize.2; dsize.1]
        (omap (fun k => data src !! source_index R C dsize.1 dsize.2 k)
              (seq 0 (Z.to_nat (dsize.2 * dsize.1))))
  | _ => src
  end.

(** A one-pixel image and a filter bank of one-tap kernels. *)
Definition pixel (v : R) : ndarray := farray [1%Z; 1%Z] [v].

Definition one_tap (minScale : R) (nrScales : Z) : SingularityIndexFilters :=
  {| minScale := minScale; nrScales := nrScales;
     Gdebias := pixel 1; G01d := pixel 1;
     G20 := pixel 1; G260 := pixel 1; G2120 := pixel 1;
     G0_a := pixel 1; G1 := pixel 1; isCreated := true |}.

(** A filter bank of one-tap kernels that removes no mean and has
    distinct second derivative responses. *)
Definition taps (minScale : R) (nrScales : Z) : SingularityIndexFilters :=
  {| minScale := minScale; nrScales := nrScales;
     Gdebias := pixel 0; G01d := pixel 1;
     G20 := pixel 1; G260 := pixel 2; G2120 := pixel 3;
     G0_a := pixel 1; G1 := pixel 1; isCreated := true |}.

End Backend.

(** ** Properties named by the specification *)

(** [k] is a rounding of [x] to a nearest integer, whatever the rule for
    ties. *)
Definition is_rounding_of (x : R) (k : Z) : Prop := Rabs (x - IZR k) <= 1 / 2.

(** [G] is the second derivative of the Gaussian along the direction
    [theta], on the grid of half size [k], from the Gaussian coefficients
    [g]: at row [i] and column [j], with [x = j - k] and [y = i - k],
    [((x*cos(theta) - y*sin(theta))**2/sigma**4 - 1/sigma**2) * g[i]*g[j]]. *)
Definition second_derivative_kernel (g : list R) (k : Z) (sigma theta : R)
    (G : ndarray) : Prop :=
  shape G = [(2 * k + 1)%Z; (2 * k + 1)%Z]
  /\ length (data G) = (Z.to_nat (2 * k + 1) * Z.to_nat (2 * k + 1))%nat
  /\ forall (i j : nat) (gi gj : R),
       g !! i = Some gi -> g !! j = Some gj ->
       data G !! (i * Z.to_nat (2 * k + 1) + j)%nat
       = Some (((IZR (Z.of_nat j - k) * cos theta
                 - IZR (Z.of_nat i - k) * sin theta) ^ 2 / sigma ^ 4
                - 1 / sigma ^ 2) * (gi * gj)).

(** [G] is the row of the first derivative of the Gaussian, of half size
    [k], from the Gaussian coefficients [g]: at column [j], with
    [x = j - k], [-((1/sigma)**2) * x * g[j]]. *)
Definition first_derivative_kernel (g : list R) (k : Z) (sigma : R)
    (G : ndarray) : Prop :=
  shape G = [1%Z; (2 * k + 1)%Z]
  /\ length (data G) = Z.to_nat (2 * k + 1)
  /\ forall (j : nat) (gj : R),
       g !! j = Some gj ->
       data G !! j = Some (- (1 / sigma) ^ 2 * IZR (Z.of_nat j - k) * gj).

(** An orientation in the half-open interval the specification gives. *)
Definition in_half_turn (x : R) : Prop := - (PI / 2) < x <= PI / 2.

(** Every element of the array satisfies [P]. *)
Definition all (P : R -> Prop) (a : ndarray) : Prop := Forall P (data a).

Definition all_zero : ndarray -> Prop := all (fun x => x = 0).

Definition bound_to (lmax lsum lo lw lp : loc) : locals :=
  {| psi_max := Some lmax; psi_sum := Some lsum; orient := Some lo;
     widthMap := Some lw; psi := Some lp |}.

(** The state between two iterations of the loop, and after it: every
    aggregate is bound to an array of the store, the orientation map is an
    object of its own, [PI] holds of the pixels of the working image, [PA]
    of the elements of every stored array and [PO] of the orientations. *)
Inductive running (PI PA PO : R -> Prop) (fr : frame) : Prop :=
  Running (lmax lsum lo lw lp : loc) :
    vars fr = bound_to lmax lsum lo lw lp ->
    (lmax < length (store fr))%nat ->
    (lsum < length (store fr))%nat ->
    (lo < length (store fr))%nat ->
    (lw < length (store fr))%nat ->
    (lp < length (store fr))%nat ->
    lmax <> lo -> lw <> lo ->
    all PI (I1 fr) ->
    Forall (all PA) (store fr) ->
    all PO (default empty_array (store fr !! lo)) ->
    running PI PA PO fr.

(** ** The aggregation as a fold

    The five aggregates as values.  The running sum is [None] while the
    name [psi_sum] is bound to the object of the running maximum, as
    scale 0 leaves it. *)
Record totals : Type := {
  t_max : ndarray;
  t_sum : option ndarray;
  t_orient : ndarray;
  t_width : ndarray;
  t_psi : ndarray
}.

(** The array read through the name [psi_sum]. *)
Definition sum_array (t : totals) : ndarray := default (t_max t) (t_sum t).

(** Lines 155-160: the aggregates after the first scale. *)
Definition first_totals (filters : SingularityIndexFilters)
    (p : Z * ndarray * ndarray) : totals :=
  {| t_max := p.1.2;
     t_sum := None;
     t_orient := p.2;
     t_width := ascale (minScale filters * sqrt2_pow p.1.1) p.1.2;
     t_psi := asquare p.1.2 |}.

(** Lines 161-167: the aggregates after one more scale. *)
Definition next_totals (filters : SingularityIndexFilters) (t : totals)
    (p : Z * ndarray * ndarray) : totals :=
  let idx := agt p.1.2 (t_max t) in
  let mx := setitem_mask (t_max t) idx (getitem_mask p.1.2 idx) in
  {| t_max := mx;
     t_sum := Some (default mx (t_sum t) + p.1.2)%A;
     t_orient := setitem_mask (t_orient t) idx (getitem_mask p.2 idx);
     t_width :=
       (t_width t + ascale (minScale filters * sqrt2_pow p.1.1) p.1.2)%A;
     t_psi := (t_psi t + asquare p.1.2)%A |}.

Definition totals_from (filters : SingularityIndexFilters)
    (p0 : Z * ndarray * ndarray) (rest : list (Z * ndarray * ndarray))
  : totals :=
  foldl (next_totals filters) (first_totals filters p0) rest.

(** Lines 169-172: the three results from the aggregates. *)
Definition finish (t : totals) : ndarray * ndarray * ndarray :=
  let m := agt0 (sum_array t) in
  (asqrt (t_psi t),
   setitem_mask (t_width t) m
     (getitem_mask (t_width t) m / getitem_mask (sum_array t) m)%A,
   t_orient t).

(** The store and the locals hold the aggregates [t]: each name is bound
    to its array, and only [psi_sum] may share its object, with
    [psi_max]. *)
Inductive holds (fr : frame) (t : totals) : Prop :=
  Holds (lmax lsum lo lw lp : nat) :
    vars fr = bound_to lmax lsum lo lw lp ->
    store fr !! lmax = Some (t_max t) ->
    store fr !! lo = Some (t_orient t) ->
    store fr !! lw = Some (t_width t) ->
    store fr !! lp = Some (t_psi t) ->
    match t_sum t with
    | None => lsum = lmax
    | Some sum => lsum <> lmax /\ store fr !! lsum = Some sum
    end ->
    lo <> lmax -> lo <> lsum ->
    lw <> lmax -> lw <> lo ->
    lp <> lmax -> lp <> lo -> lp <> lw ->
    holds fr t.

(** The scale, response and orientation of scale 0: the image is neither
    downscaled nor the response resized. *)
Definition scale_0 (cv2_sepFilter2D : ndarray -> ndarray -> ndarray -> ndarray)
    (fftconvolve : ndarray -> ndarray -> ndarray)
    (filters : SingularityIndexFilters) (img : ndarray)
  : Z * ndarray * ndarray :=
  (0%Z, (scale_response cv2_sepFilter2D fftconvolve filters img).1,
        (scale_response cv2_sepFilter2D fftconvolve filters img).2).

(** ** Pixel by pixel *)

(** The orientation of a scale in a list of passes. *)
Definition angles_of (p : Z * ndarray * ndarray) : list R := data p.2.

(** The sum of the squared responses of all scales, at pixel [i]. *)
Definition sum_of_squares (passes : list (Z * ndarray * ndarray)) (i : nat) : R :=
  foldr Rplus 0 ((fun p => default 0 (response_of p !! i) ^ 2) <$> passes).

(** The responses of all scales weighted by the bandwidth
    [minScale * sqrt(2)**s] of each scale, summed, at pixel [i]. *)
Definition weighted_sum (filters : SingularityIndexFilters)
    (passes : list (Z * ndarray * ndarray)) (i : nat) : R :=
  foldr Rplus 0
    ((fun p => minScale filters * sqrt2_pow p.1.1
               * default 0 (response_of p !! i)) <$> passes).

(** The response and the orientation of a scale at pixel [i]. *)
Definition pixel_of (i : nat) (p : Z * ndarray * ndarray) : R * R :=
  (default 0 (response_of p !! i), default 0 (angles_of p !! i)).

(** Winner-take-all: a scale replaces the running maximum and its
    orientation when its response is strictly greater. *)
Definition winner (best : R * R) (xy : R * R) : R * R :=
  if Rgtb xy.1 best.1 then xy else best.

(** Every scale of the list has a response and an orientation at pixel
    [i]. *)
Definition covers (i : nat) (passes : list (Z * ndarray * ndarray)) : Prop :=
  Forall (fun p => is_Some (response_of p !! i) /\ is_Some (angles_of p !! i))
    passes.


(** An array of [rows] by [cols] elements. *)
Definition sized (rows cols : Z) (a : ndarray) : Prop :=
  shape a = [rows; cols] /\ length (data a) = Z.to_nat (rows * cols).

(** A two by two image, row by row. *)
Definition two_by_two (a b c d : R) : ndarray :=
  farray [2%Z; 2%Z] [a; b; c; d].
(** ** Scalars *)

Lemma Rgtb_true x y : y < x -> Rgtb x y = true.
Proof. intros H. unfold Rgtb. destruct (Rlt_dec y x); [done | lra]. Qed.

Lemma Rgtb_false x y : x <= y -> Rgtb x y = false.
Proof. intros H. unfold Rgtb. destruct (Rlt_dec y x); [lra | done]. Qed.

Lemma Rgtb_spec x y : Rgtb x y = true <-> y < x.
Proof. unfold Rgtb. destruct (Rlt_dec y x); split; intros; done. Qed.

Lemma py_int_floor x :
  0 <= x -> IZR (py_int x) <= x < IZR (py_int x) + 1.
Proof.
  intros Hx. unfold py_int. destruct (Rle_dec 0 x) as [_ | Hn]; [| lra].
  destruct (base_Int_part x). lra.
Qed.

Lemma py_int_unique x z :
  IZR z <= x < IZR z + 1 -> 0 <= x -> py_int x = z.
Proof.
  intros Hz Hx. unfold py_int. destruct (Rle_dec 0 x) as [_ | Hn]; [| lra].
  symmetry. apply Int_part_spec. lra.
Qed.

Lemma py_int_nonneg x : 0 <= x -> (0 <= py_int x)%Z.
Proof.
  intros Hx. destruct (py_int_floor x Hx) as [_ Hlt].
  apply Z.lt_succ_r, lt_IZR. rewrite succ_IZR. lra.
Qed.

Lemma py_div_nonzero a b : b <> 0 -> py_div a b = inr (a / b).
Proof. intros H. unfold py_div. destruct (Req_dec_T b 0); [lra | done]. Qed.

Lemma py_div_zero a : py_div a 0 = inl (ZeroDivisionError "float division by zero").
Proof. unfold py_div. destruct (Req_dec_T 0 0); [done | lra]. Qed.

Lemma py_range_length a b : length (py_range a b) = Z.to_nat (b - a).
Proof. unfold py_range. by rewrite length_fmap, length_seq. Qed.

Lemma py_range_empty a b : (b <= a)%Z -> py_range a b = [].
Proof.
  intros H. unfold py_range. replace (Z.to_nat (b - a)) with 0%nat by lia. done.
Qed.

Lemma py_range_cons a b : (a < b)%Z -> py_range a b = a :: py_range (a + 1) b.
Proof.
  intros H. unfold py_range.
  replace (Z.to_nat (b - a)) with (S (Z.to_nat (b - (a + 1)))) by lia.
  cbn [seq fmap list_fmap]. f_equal; [lia |].
  rewrite <- seq_shift, <- list_fmap_compose.
  apply list_fmap_ext. intros _ i _. cbn. lia.
Qed.

Lemma py_range_lower a b s : s ∈ py_range a b -> (a <= s)%Z.
Proof.
  unfold py_range. intros [i [-> _]]%list_elem_of_fmap. lia.
Qed.

(** [np.arctan2] takes its values in the half-open turn [(-PI, PI]]. *)
Lemma arctan2_range y x : - PI < arctan2 y x <= PI.
Proof.
  pose proof PI_RGT_0 as Hpi.
  unfold arctan2.
  destruct (Rlt_dec 0 x) as [Hx | Hx].
  { pose proof (atan_bound (y / x)). lra. }
  destruct (Rlt_dec x 0) as [Hx' | Hx'].
  - destruct (Rle_dec 0 y) as [Hy | Hy].
    + assert (y / x <= 0) as Hq.
      { unfold Rdiv. assert (/ x < 0) by (apply Rinv_lt_0_compat; lra). nra. }
      pose proof (atan_bound (y / x)) as Hb.
      assert (atan (y / x) <= 0) as Hle.
      { destruct Hq as [Hq | Hq].
        - left. rewrite <- atan_0. by apply atan_increasing.
        - rewrite Hq, atan_0. lra. }
      lra.
    + assert (0 < y / x) as Hq.
      { unfold Rdiv. assert (/ x < 0) by (apply Rinv_lt_0_compat; lra). nra. }
      pose proof (atan_bound (y / x)) as Hb.
      assert (0 < atan (y / x)) as Hlt.
      { rewrite <- atan_0. by apply atan_increasing. }
      lra.
  - destruct (Rlt_dec 0 y); [lra |]. destruct (Rlt_dec y 0); lra.
Qed.


(** ** The filter bank *)

Lemma sigma1_nonzero ms : ms <> 0 -> sigma1 ms <> 0.
Proof. unfold sigma1. intros H. nra. Qed.

Lemma getGaussianKernel_positive gk ksize sigma :
  (0 < ksize)%Z ->
  cv2_getGaussianKernel gk ksize sigma
  = inr (farray [ksize; 1%Z] (gk ksize sigma)).
Proof.
  intros H. unfold cv2_getGaussianKernel.
  by assert ((0 <? ksize)%Z = true) as -> by lia.
Qed.

Lemma getGaussianKernel_not_positive gk ksize sigma :
  (ksize <= 0)%Z ->
  cv2_getGaussianKernel gk ksize sigma = inl (cv2_error "getGaussianKernel").
Proof.
  intros H. unfold cv2_getGaussianKernel.
  by assert ((0 <? ksize)%Z = false) as -> by lia.
Qed.

(** [int] of a float between -1 and 0 is 0. *)
Lemma py_int_above_minus_one x : -1 < x <= 0 -> py_int x = 0%Z.
Proof.
  intros Hx. unfold py_int. destruct (Rle_dec 0 x) as [Hpos | Hneg].
  - replace x with 0 by lra. symmetry. apply Int_part_spec. lra.
  - replace (Int_part (- x)) with 0%Z; [done |]. apply Int_part_spec. lra.
Qed.

(** [int] of a float that is at most -1 is at most -1. *)
Lemma py_int_at_most_minus_one x : x <= -1 -> (py_int x <= -1)%Z.
Proof.
  intros Hx. unfold py_int. destruct (Rle_dec 0 x) as [Hpos | Hneg]; [lra |].
  destruct (base_Int_part (- x)) as [_ Hgt].
  assert (0 < Int_part (- x))%Z; [| lia]. apply lt_IZR. lra.
Qed.

Lemma ksize2_positive ms : -1 < 3 * ms -> (1 <= ksize2 ms)%Z.
Proof.
  intros H. unfold ksize2, sigma2.
  destruct (Rle_dec 0 ms) as [Hpos | Hneg].
  - assert (0 <= py_int (ms * 3))%Z by (apply py_int_nonneg; lra). lia.
  - rewrite py_int_above_minus_one by lra. lia.
Qed.

Lemma ksize1_positive ms : -1 < 15 * ms -> (1 <= ksize1 ms)%Z.
Proof.
  intros H. unfold ksize1, sigma1.
  destruct (Rle_dec 0 ms) as [Hpos | Hneg].
  - assert (0 <= py_int (ms * 1.7754 * 3))%Z by (apply py_int_nonneg; nra). lia.
  - rewrite py_int_above_minus_one by lra. lia.
Qed.

Lemma ksized_nonnegative ms : -1 < 15 * ms -> (0 <= ksized ms)%Z.
Proof.
  intros H. unfold ksized, sigmad.
  destruct (Rle_dec 0 ms) as [Hpos | Hneg].
  - apply py_int_nonneg. lra.
  - rewrite py_int_above_minus_one by lra. lia.
Qed.

Lemma ksized_negative ms : 15 * ms <= -1 -> (ksized ms <= -1)%Z.
Proof.
  intros H. unfold ksized, sigmad. apply py_int_at_most_minus_one. lra.
Qed.

(** Unless [minScale] is zero or so negative that the first kernel size
    is negative, the construction succeeds; the Gaussian kernels are the
    ones [cv2.getGaussianKernel] returns. *)
Lemma createFilters_inr gk ms n :
  ms <> 0 -> -1 < 15 * ms ->
  exists g20 g260 g2120 g1,
    _createFilters gk ms n =
      inr {| minScale := ms; nrScales := n;
             Gdebias := farray [(2 * ksized ms + 1)%Z; 1%Z]
                          (gk (2 * ksized ms + 1)%Z (sigmad ms));
             G01d := farray [(2 * ksize2 ms + 1)%Z; 1%Z]
                       (gk (2 * ksize2 ms + 1)%Z (sigma2 ms));
             G20 := g20; G260 := g260; G2120 := g2120;
             G0_a := farray [(2 * ksize1 ms + 1)%Z; 1%Z]
                       (gk (2 * ksize1 ms + 1)%Z (sigma1 ms));
             G1 := g1; isCreated := true |}
    /\ second_derivative
         (rotated_coordinate
            (meshgrid (py_range (- ksize2 ms) (ksize2 ms + 1))
               (py_range (- ksize2 ms) (ksize2 ms + 1))).1
            (meshgrid (py_range (- ksize2 ms) (ksize2 ms + 1))
               (py_range (- ksize2 ms) (ksize2 ms + 1))).2 theta1)
         (sigma2 ms)
         (outer (farray [(2 * ksize2 ms + 1)%Z; 1%Z]
                   (gk (2 * ksize2 ms + 1)%Z (sigma2 ms)))) = inr g20
    /\ second_derivative
         (rotated_coordinate
            (meshgrid (py_range (- ksize2 ms) (ksize2 ms + 1))
               (py_range (- ksize2 ms) (ksize2 ms + 1))).1
            (meshgrid (py_range (- ksize2 ms) (ksize2 ms + 1))
               (py_range (- ksize2 ms) (ksize2 ms + 1))).2 theta2)
         (sigma2 ms)
         (outer (farray [(2 * ksize2 ms + 1)%Z; 1%Z]
                   (gk (2 * ksize2 ms + 1)%Z (sigma2 ms)))) = inr g260
    /\ second_derivative
         (rotated_coordinate
            (meshgrid (py_range (- ksize2 ms) (ksize2 ms + 1))
               (py_range (- ksize2 ms) (ksize2 ms + 1))).1
            (meshgrid (py_range (- ksize2 ms) (ksize2 ms + 1))
               (py_range (- ksize2 ms) (ksize2 ms + 1))).2 theta3)
         (sigma2 ms)
         (outer (farray [(2 * ksize2 ms + 1)%Z; 1%Z]
                   (gk (2 * ksize2 ms + 1)%Z (sigma2 ms)))) = inr g2120
    /\ g1 = (ascale (- ((1 / sigma1 ms) ^ 2)) (linspace_row (ksize1 ms))
             * transpose (farray [(2 * ksize1 ms + 1)%Z; 1%Z]
                            (gk (2 * ksize1 ms + 1)%Z (sigma1 ms))))%A
    /\ shape g20 = [(2 * ksize2 ms + 1)%Z; (2 * ksize2 ms + 1)%Z]
    /\ shape g260 = shape g20 /\ shape g2120 = shape g20
    /\ shape g1 = [1%Z; (2 * ksize1 ms + 1)%Z].
Proof.
  intros Hms Hlow.
  pose proof (ksized_nonnegative ms Hlow) as Hkd.
  pose proof (ksize2_positive ms ltac:(lra)) as Hk2.
  pose proof (ksize1_positive ms Hlow) as Hk1.
  unfold _createFilters, second_derivative, meshgrid.
  rewrite !getGaussianKernel_positive by lia.
  rewrite (py_div_nonzero 1 (sigma2 ms ^ 2)) by (unfold sigma2; nra).
  rewrite (py_div_nonzero 1 (sigma1 ms)) by (by apply sigma1_nonzero).
  cbn [rbind ret fst snd].
  do 4 eexists. split; [reflexivity |].
  split; [reflexivity |]. split; [reflexivity |]. split; [reflexivity |].
  split; [reflexivity |].
  cbn. rewrite py_range_length.
  replace (ksize2 ms + 1 - - ksize2 ms)%Z with (2 * ksize2 ms + 1)%Z by lia.
  rewrite Z2Nat.id by lia. done.
Qed.

(** A zero [minScale] stops the construction at [1/(sigma2**2)]. *)
Lemma createFilters_zero gk n :
  _createFilters gk 0 n = inl (ZeroDivisionError "float division by zero").
Proof.
  pose proof (ksized_nonnegative 0 ltac:(lra)) as Hkd.
  pose proof (ksize2_positive 0 ltac:(lra)) as Hk2.
  unfold _createFilters, second_derivative, meshgrid.
  rewrite !getGaussianKernel_positive by lia.
  replace (sigma2 0 ^ 2) with 0 by (unfold sigma2; lra).
  rewrite py_div_zero. done.
Qed.

(** A [minScale] of -1/15 or less stops it at the first call of
    [cv2.getGaussianKernel], whose size [2*int(15*minScale) + 1] is
    negative. *)
Lemma createFilters_negative gk ms n :
  15 * ms <= -1 ->
  _createFilters gk ms n = inl (cv2_error "getGaussianKernel").
Proof.
  intros H. pose proof (ksized_negative ms H) as Hkd.
  unfold _createFilters.
  rewrite getGaussianKernel_not_positive by lia. done.
Qed.

Lemma createFilters_nrScales gk ms n1 n2 :
  rbind (_createFilters gk ms n1) (fun f => ret (kernels f)) =
  rbind (_createFilters gk ms n2) (fun f => ret (kernels f)).
Proof.
  unfold _createFilters, second_derivative, meshgrid.
  destruct (cv2_getGaussianKernel gk (2 * ksized ms + 1) _); [done |].
  cbn [rbind].
  destruct (cv2_getGaussianKernel gk (2 * ksize2 ms + 1) _); [done |].
  cbn [rbind].
  destruct (py_div 1 (sigma2 ms ^ 2)); [done |].
  cbn [rbind ret].
  destruct (cv2_getGaussianKernel gk (2 * ksize1 ms + 1) _); [done |].
  cbn [rbind].
  destruct (py_div 1 (sigma1 ms)); done.
Qed.

(** *** The coefficients of the derivative kernels *)

Lemma py_range_lookup a b (i : nat) :
  (i < Z.to_nat (b - a))%nat -> py_range a b !! i = Some (a + Z.of_nat i)%Z.
Proof.
  intros Hi. unfold py_range.
  rewrite list_lookup_fmap, lookup_seq_lt by done. done.
Qed.

(** Row [i], column [j] of a grid stored row by row. *)
Lemma lookup_mjoin_row {A} (w : nat) (rows : list (list A)) (i j : nat) :
  Forall (fun row => length row = w) rows -> (j < w)%nat ->
  mjoin rows !! (i * w + j)%nat = rows !! i ≫= (fun row => row !! j).
Proof.
  intros Hall Hj. revert i Hall.
  induction rows as [| row rows IH]; intros i Hall; [by destruct i |].
  apply Forall_cons in Hall as [Hrow Hall].
  change (mjoin (row :: rows)) with (row ++ mjoin rows).
  destruct i as [| i]; cbn [lookup list_lookup mbind option_bind].
  - rewrite lookup_app_l by lia. done.
  - rewrite lookup_app_r by lia.
    replace (S i * w + j - length row)%nat with (i * w + j)%nat by lia.
    by apply IH.
Qed.

Lemma meshgrid_lookup (xs ys : list Z) (i j : nat) (x y : Z) :
  xs !! j = Some x -> ys !! i = Some y ->
  data (meshgrid xs ys).1 !! (i * length xs + j)%nat = Some (IZR x)
  /\ data (meshgrid xs ys).2 !! (i * length xs + j)%nat = Some (IZR y).
Proof.
  intros Hx Hy. pose proof (lookup_lt_Some _ _ _ Hx) as Hj.
  unfold meshgrid. cbn [fst snd data farray]. split.
  - rewrite (lookup_mjoin_row (length xs)); [| | done].
    + rewrite list_lookup_fmap, Hy. cbn. by rewrite list_lookup_fmap, Hx.
    + apply Forall_fmap, Forall_true. intros z. cbn. by rewrite length_fmap.
  - rewrite (lookup_mjoin_row (length xs)); [| | done].
    + rewrite list_lookup_fmap, Hy. cbn.
      rewrite list_lookup_fmap, lookup_replicate_2 by done. done.
    + apply Forall_fmap, Forall_true. intros z. cbn.
      by rewrite length_fmap, length_replicate.
Qed.

Lemma outer_lookup (col : ndarray) (i j : nat) (gi gj : R) :
  data col !! i = Some gi -> data col !! j = Some gj ->
  data (outer col) !! (i * length (data col) + j)%nat = Some (gi * gj).
Proof.
  intros Hi Hj. pose proof (lookup_lt_Some _ _ _ Hj) as Hlt.
  unfold outer. cbn [data farray].
  rewrite (lookup_mjoin_row (length (data col))); [| | done].
  - rewrite list_lookup_fmap, Hi. cbn. by rewrite list_lookup_fmap, Hj.
  - apply Forall_fmap, Forall_true. intros z. cbn. by rewrite length_fmap.
Qed.

Lemma length_mjoin_rows {A} (w : nat) (rows : list (list A)) :
  Forall (fun row => length row = w) rows ->
  length (mjoin rows) = (length rows * w)%nat.
Proof.
  induction rows as [| row rows IH]; intros Hall; [done |].
  apply Forall_cons in Hall as [Hrow Hall].
  change (mjoin (row :: rows)) with (row ++ mjoin rows).
  cbn [length]. rewrite length_app, IH by done. lia.
Qed.

Lemma length_meshgrid (xs ys : list Z) :
  length (data (meshgrid xs ys).1) = (length ys * length xs)%nat
  /\ length (data (meshgrid xs ys).2) = (length ys * length xs)%nat.
Proof.
  unfold meshgrid. cbn [fst snd data farray]. split.
  - rewrite (length_mjoin_rows (length xs)); [by rewrite length_fmap |].
    apply Forall_fmap, Forall_true. intros z. cbn. by rewrite length_fmap.
  - rewrite (length_mjoin_rows (length xs)); [by rewrite length_fmap |].
    apply Forall_fmap, Forall_true. intros z. cbn.
    by rewrite length_fmap, length_replicate.
Qed.

Lemma length_outer (col : ndarray) :
  length (data (outer col)) = (length (data col) * length (data col))%nat.
Proof.
  unfold outer. cbn [data farray].
  rewrite (length_mjoin_rows (length (data col))); [by rewrite length_fmap |].
  apply Forall_fmap, Forall_true. intros z. cbn. by rewrite length_fmap.
Qed.

(** Lines 52-65: a second derivative kernel, coefficient by
    coefficient. *)
Lemma second_derivative_coefficients (g : list R) (k : Z) (sigma theta : R)
    (G : ndarray) :
  (0 <= k)%Z -> length g = Z.to_nat (2 * k + 1) ->
  second_derivative
    (rotated_coordinate
       (meshgrid (py_range (- k) (k + 1)) (py_range (- k) (k + 1))).1
       (meshgrid (py_range (- k) (k + 1)) (py_range (- k) (k + 1))).2 theta)
    sigma (outer (farray [(2 * k + 1)%Z; 1%Z] g)) = inr G ->
  second_derivative_kernel g k sigma theta G.
Proof.
  intros Hk Hg.
  assert (length (py_range (- k) (k + 1)) = Z.to_nat (2 * k + 1)) as Hlen.
  { rewrite py_range_length. f_equal. lia. }
  destruct (length_meshgrid (py_range (- k) (k + 1)) (py_range (- k) (k + 1)))
    as [HX HY].
  pose proof (length_outer (farray [(2 * k + 1)%Z; 1%Z] g)) as HG.
  assert (forall (i j : nat) (gi gj : R),
            g !! i = Some gi -> g !! j = Some gj ->
            data (meshgrid (py_range (- k) (k + 1))
                    (py_range (- k) (k + 1))).1
              !! (i * Z.to_nat (2 * k + 1) + j)%nat
            = Some (IZR (Z.of_nat j - k))
            /\ data (meshgrid (py_range (- k) (k + 1))
                       (py_range (- k) (k + 1))).2
                 !! (i * Z.to_nat (2 * k + 1) + j)%nat
               = Some (IZR (Z.of_nat i - k))
            /\ data (outer (farray [(2 * k + 1)%Z; 1%Z] g))
                 !! (i * Z.to_nat (2 * k + 1) + j)%nat
               = Some (gi * gj)) as Hat.
  { intros i j gi gj Hi Hj.
    pose proof (lookup_lt_Some _ _ _ Hi) as Hilt.
    pose proof (lookup_lt_Some _ _ _ Hj) as Hjlt.
    destruct (meshgrid_lookup (py_range (- k) (k + 1)) (py_range (- k) (k + 1))
                i j (- k + Z.of_nat j) (- k + Z.of_nat i)) as [EX EY].
    { apply py_range_lookup. lia. }
    { apply py_range_lookup. lia. }
    rewrite Hlen in EX, EY.
    pose proof (outer_lookup (farray [(2 * k + 1)%Z; 1%Z] g) i j gi gj Hi Hj)
      as EG.
    cbn [data farray] in EG. rewrite Hg in EG.
    replace (- k + Z.of_nat j)%Z with (Z.of_nat j - k)%Z in EX by lia.
    replace (- k + Z.of_nat i)%Z with (Z.of_nat i - k)%Z in EY by lia.
    done. }
  assert (shape (meshgrid (py_range (- k) (k + 1))
                   (py_range (- k) (k + 1))).1
          = [(2 * k + 1)%Z; (2 * k + 1)%Z]) as Hshape.
  { cbn. rewrite Hlen, Z2Nat.id by lia. done. }
  cbn [data farray] in HG. rewrite Hlen in HX, HY. rewrite Hg in HG.
  revert HX HY HG Hat Hshape.
  generalize (meshgrid (py_range (- k) (k + 1)) (py_range (- k) (k + 1))).1.
  generalize (meshgrid (py_range (- k) (k + 1)) (py_range (- k) (k + 1))).2.
  generalize (outer (farray [(2 * k + 1)%Z; 1%Z] g)).
  intros G0 Y X HX HY HG Hat Hshape.
  unfold second_derivative, py_div.
  destruct (Req_dec_T (sigma ^ 2) 0) as [| Hs]; [done |].
  cbn [rbind ret]. intros [= <-].
  split; [exact Hshape | split].
  - cbn [amul asub_scalar adiv_scalar asquare rotated_coordinate asub
         amul_scalar azip amap data farray].
    rewrite length_zip_with, !length_fmap, length_zip_with, !length_fmap.
    rewrite HX, HY, HG. lia.
  - intros i j gi gj Hi Hj.
    destruct (Hat i j gi gj Hi Hj) as (EX & EY & EG).
    cbn [amul asub_scalar adiv_scalar asquare rotated_coordinate asub
         amul_scalar azip amap data farray].
    rewrite lookup_zip_with, !list_lookup_fmap, lookup_zip_with,
      !list_lookup_fmap, EX, EY, EG.
    done.
Qed.

(** Lines 68-71: the first derivative kernel, coefficient by
    coefficient. *)
Lemma first_derivative_coefficients (g : list R) (k : Z) (sigma : R) :
  (0 <= k)%Z -> length g = Z.to_nat (2 * k + 1) ->
  first_derivative_kernel g k sigma
    (ascale (- ((1 / sigma) ^ 2)) (linspace_row k)
     * transpose (farray [(2 * k + 1)%Z; 1%Z] g))%A.
Proof.
  intros Hk Hg. split; [done | split].
  - cbn [amul ascale azip amap transpose linspace_row data farray].
    rewrite length_zip_with, !length_fmap, py_range_length, Hg.
    replace (k + 1 - - k)%Z with (2 * k + 1)%Z by lia. lia.
  - intros j gj Hj. pose proof (lookup_lt_Some _ _ _ Hj) as Hjlt.
    cbn [amul ascale azip amap transpose linspace_row data farray].
    rewrite lookup_zip_with, !list_lookup_fmap, Hj.
    rewrite py_range_lookup by lia.
    cbn [fmap option_fmap option_map mbind option_bind].
    replace (- k + Z.of_nat j)%Z with (Z.of_nat j - k)%Z by lia.
    done.
Qed.



Lemma backend_getGaussianKernel_length k sigma :
  (0 < k)%Z -> length (Backend.getGaussianKernel k sigma) = Z.to_nat k.
Proof.
  intros _. unfold Backend.getGaussianKernel.
  rewrite !length_fmap, py_range_length. f_equal. lia.
Qed.


(** C4, as the specification states it, fails: at [minScale = 1] the
    half size of the second derivative kernels is [4], and [3 * sigma] is
    [3]. *)
Lemma C4_half_size_not_rounded :
  ~ (forall ms, 0 < ms ->
        is_rounding_of (3 * sigmad ms) (ksized ms)
        /\ is_rounding_of (3 * sigma2 ms) (ksize2 ms)
        /\ is_rounding_of (3 * sigma1 ms) (ksize1 ms)).
Proof.
  intros Hclaim. destruct (Hclaim 1) as (_ & H2 & _); [lra |].
  unfold is_rounding_of, ksize2, sigma2 in H2.
  rewrite (py_int_unique (1 * 3) 3) in H2 by lra.
  change (3 + 1)%Z with 4%Z in H2.
  unfold Rabs in H2. destruct (Rcase_abs (3 * 1 - 4)); lra.
Qed.

(** C4, amended: for every [minScale > 0] the half sizes are truncations.
    The debias kernel has half size [floor(3 * sigma)] with
    [sigma = 5 * minScale]; the Gaussian and second derivative kernels have
    half size [floor(3 * sigma) + 1] with [sigma = minScale]; the first
    derivative kernels have half size [floor(3 * sigma) + 1] with
    [sigma = minScale * 1.7754].  Every kernel has the odd full size
    [2 * k + 1]. *)
Theorem C4_half_sizes_truncate gk ms n :
  0 < ms ->
  (sigmad ms = 5 * ms /\ sigma2 ms = ms /\ sigma1 ms = ms * 1.7754)
  /\ IZR (ksized ms) <= 3 * sigmad ms < IZR (ksized ms) + 1
  /\ IZR (ksize2 ms) - 1 <= 3 * sigma2 ms < IZR (ksize2 ms)
  /\ IZR (ksize1 ms) - 1 <= 3 * sigma1 ms < IZR (ksize1 ms)
  /\ exists f,
       __init__ gk ms n = inr f
       /\ shape (Gdebias f) = [(2 * ksized ms + 1)%Z; 1%Z]
       /\ shape (G01d f) = [(2 * ksize2 ms + 1)%Z; 1%Z]
       /\ shape (G20 f) = [(2 * ksize2 ms + 1)%Z; (2 * ksize2 ms + 1)%Z]
       /\ shape (G260 f) = [(2 * ksize2 ms + 1)%Z; (2 * ksize2 ms + 1)%Z]
       /\ shape (G2120 f) = [(2 * ksize2 ms + 1)%Z; (2 * ksize2 ms + 1)%Z]
       /\ shape (G0_a f) = [(2 * ksize1 ms + 1)%Z; 1%Z]
       /\ shape (G1 f) = [1%Z; (2 * ksize1 ms + 1)%Z]
       /\ Z.odd (2 * ksized ms + 1) = true
       /\ Z.odd (2 * ksize2 ms + 1) = true
       /\ Z.odd (2 * ksize1 ms + 1) = true.
Proof.
  intros Hms. split; [done |].
  assert (0 <= sigmad ms * 3) as Hd by (unfold sigmad; lra).
  assert (0 <= sigma2 ms * 3) as H2 by (unfold sigma2; lra).
  assert (0 <= sigma1 ms * 3) as H1 by (unfold sigma1; lra).
  pose proof (py_int_floor _ Hd) as Fd.
  pose proof (py_int_floor _ H2) as F2.
  pose proof (py_int_floor _ H1) as F1.
  split; [unfold ksized; lra |].
  split; [unfold ksize2; rewrite plus_IZR; lra |].
  split; [unfold ksize1; rewrite plus_IZR; lra |].
  destruct (createFilters_inr gk ms n)
    as (g20 & g260 & g2120 & g1 & Hok & _ & _ & _ & _ & S20 & S260 & S2120 & S1);
    [lra | lra |].
  eexists. split; [exact Hok |]. cbn.
  rewrite S260, S2120, S20, S1.
  repeat split; try done; rewrite Z.add_comm, Z.odd_add_mul_2; done.
Qed.

Lemma C4_half_sizes_truncate_witness :
  0 < 1 /\ IZR (ksize2 1) - 1 <= 3 * sigma2 1 < IZR (ksize2 1).
Proof.
  split; [lra |].
  apply (C4_half_sizes_truncate Backend.getGaussianKernel 1 15). lra.
Defined.

(** C9: for a fixed [minScale > 0] and any two values of [nrScales], the
    two filter banks are built and have the same debias, Gaussian, second
    derivative and first derivative kernels, in shape and in value. *)
Theorem C9_kernels_do_not_depend_on_nrScales gk ms n1 n2 :
  0 < ms ->
  exists f1 f2,
    __init__ gk ms n1 = inr f1 /\ __init__ gk ms n2 = inr f2
    /\ kernels f1 = kernels f2.
Proof.
  intros Hms. unfold __init__.
  pose proof (createFilters_nrScales gk ms n1 n2) as Heq.
  destruct (createFilters_inr gk ms n1) as (? & ? & ? & ? & Hok1 & _);
    [lra | lra |].
  destruct (createFilters_inr gk ms n2) as (? & ? & ? & ? & Hok2 & _);
    [lra | lra |].
  rewrite Hok1, Hok2 in Heq |- *. cbn in Heq.
  do 2 eexists. split; [reflexivity |]. split; [reflexivity |].
  unfold ret in Heq. injection Heq as -> -> -> ->. done.
Qed.

Lemma C9_kernels_do_not_depend_on_nrScales_witness :
  0 < 1.5 /\
  exists f1 f2,
    __init__ Backend.getGaussianKernel 1.5 1 = inr f1
    /\ __init__ Backend.getGaussianKernel 1.5 15 = inr f2
    /\ kernels f1 = kernels f2.
Proof.
  split; [lra |].
  apply (C9_kernels_do_not_depend_on_nrScales Backend.getGaussianKernel 1.5 1 15).
  lra.
Defined.
(** ** Arrays *)

Lemma Forall_zip_with_both {A B C} (f : A -> B -> C) (P : A -> Prop)
    (Q : B -> Prop) (S : C -> Prop) l k :
  (forall x y, P x -> Q y -> S (f x y)) ->
  Forall P l -> Forall Q k -> Forall S (zip_with f l k).
Proof.
  intros Hf Hl. revert k. induction Hl as [| x l Hx Hl IH]; intros k Hk; [constructor |].
  destruct Hk as [| y k Hy Hk]; cbn; [constructor |].
  constructor; auto.
Qed.

Lemma Forall_compress P m d : Forall P d -> Forall P (compress m d).
Proof.
  intros Hd. revert m. induction Hd as [| x d Hx Hd IH]; intros [| [] m]; cbn; auto.
Qed.

Lemma Forall_place P m vals d :
  Forall P d -> Forall P vals -> Forall P (place m vals d).
Proof.
  intros Hd. revert m vals.
  induction Hd as [| x d Hx Hd IH]; intros [| [] m] vals Hv; cbn; auto.
  destruct Hv; constructor; auto.
Qed.

Lemma Forall_place_scalar P m c d :
  Forall P d -> P c -> Forall P (place_scalar m c d).
Proof.
  intros Hd Hc. revert m.
  induction Hd as [| x d Hx Hd IH]; intros [| b m]; cbn; auto.
  constructor; [by destruct b | auto].
Qed.

Lemma all_empty P : all P empty_array.
Proof. constructor. Qed.

Lemma all_deref P (h : list ndarray) l :
  Forall (all P) h -> all P (default empty_array (h !! l)).
Proof.
  intros Hh. destruct (h !! l) as [a |] eqn:E; cbn; [| apply all_empty].
  eapply Forall_lookup_1; eauto.
Qed.

Lemma all_amap P Q f a : (forall x, P x -> Q (f x)) -> all P a -> all Q (amap f a).
Proof. intros Hf Ha. unfold all, amap. cbn. by apply Forall_fmap, (Forall_impl _ _ _ Ha). Qed.

Lemma all_azip P Q S f a b :
  (forall x y, P x -> Q y -> S (f x y)) -> all P a -> all Q b -> all S (azip f a b).
Proof. intros. unfold all, azip. cbn. by eapply Forall_zip_with_both. Qed.

Lemma all_setitem_mask P a m vals :
  all P a -> all P vals -> all P (setitem_mask a m vals).
Proof. intros. unfold all, setitem_mask. cbn. by apply Forall_place. Qed.

Lemma all_getitem_mask P a m : all P a -> all P (getitem_mask a m).
Proof. intros. unfold all, getitem_mask. cbn. by apply Forall_compress. Qed.

(** ** The loop and its invariant *)

Lemma bindM_inr {A B} (m : M A) (k : A -> M B) fr fr' a :
  m fr = (fr', inr a) -> bindM m k fr = k a fr'.
Proof. intros E. unfold bindM. by rewrite E. Qed.

(** Lengths of stores built by allocation and update. *)
Ltac lens :=
  repeat (rewrite length_app || rewrite length_insert); cbn [length]; lia.

(** *** Sizes with and without pixels *)

Lemma resize_has_pixels resample src dsize interp :
  has_pixels dsize = true ->
  cv2_resize resample src dsize interp = inr (resample src dsize interp).
Proof. intros H. unfold cv2_resize. by rewrite H. Qed.

Lemma resize_no_pixel resample src dsize interp :
  has_pixels dsize = false ->
  cv2_resize resample src dsize interp = inl (cv2_error "resize").
Proof. intros H. unfold cv2_resize. by rewrite H. Qed.

Lemma py_int_nonpositive x : x <= 0 -> (py_int x <= 0)%Z.
Proof.
  intros Hx. unfold py_int. destruct (Rle_dec 0 x) as [Hpos | Hneg].
  - replace x with 0 by lra. replace (Int_part 0) with 0%Z; [done |].
    apply Int_part_spec. lra.
  - destruct (base_Int_part (- x)) as [_ Hgt].
    assert (-1 < Int_part (- x))%Z; [| lia]. apply lt_IZR. lra.
Qed.

Lemma sqrt2_pow_positive s : 0 < sqrt2_pow s.
Proof. unfold sqrt2_pow. apply pow_lt, sqrt_lt_R0. lra. Qed.

Lemma sqrt2_pow_increasing s t : (s <= t)%Z -> sqrt2_pow s <= sqrt2_pow t.
Proof.
  intros Hst. unfold sqrt2_pow. apply Rle_pow; [| lia].
  rewrite <- sqrt_1 at 1. apply sqrt_le_1_alt. lra.
Qed.

(** A side of length [n] keeps at least one pixel at scale [s] exactly
    when the factor [sqrt(2)**s] does not exceed [n]. *)
Lemma side_positive n s :
  sqrt2_pow s <= IZR n -> (0 < py_int (IZR n / sqrt2_pow s))%Z.
Proof.
  intros Hn. pose proof (sqrt2_pow_positive s) as Hpos.
  assert (1 <= IZR n / sqrt2_pow s) as Hq.
  { apply (Rmult_le_reg_r (sqrt2_pow s)); [done |]. field_simplify; lra. }
  destruct (py_int_floor (IZR n / sqrt2_pow s)) as [_ Hlt]; [lra |].
  apply lt_IZR. lra.
Qed.

Lemma side_not_positive n s :
  IZR n < sqrt2_pow s -> (py_int (IZR n / sqrt2_pow s) <= 0)%Z.
Proof.
  intros Hn. pose proof (sqrt2_pow_positive s) as Hpos.
  assert (IZR n / sqrt2_pow s < 1) as Hq.
  { apply (Rmult_lt_reg_r (sqrt2_pow s)); [done |]. field_simplify; lra. }
  destruct (Rle_dec 0 (IZR n / sqrt2_pow s)) as [H0 | H0].
  - rewrite (py_int_unique _ 0); [done | lra | done].
  - apply py_int_nonpositive. lra.
Qed.

Lemma has_pixels_spec w h : has_pixels (w, h) = true <-> (0 < w)%Z /\ (0 < h)%Z.
Proof. unfold has_pixels. cbn [fst snd]. rewrite andb_true_iff. lia. Qed.

(** The size at scale [s] has pixels exactly when neither side is
    shorter than [sqrt(2)**s]. *)
Lemma scaled_size_has_pixels rows cols s :
  has_pixels (scaled_size rows cols s) = true
  <-> sqrt2_pow s <= IZR rows /\ sqrt2_pow s <= IZR cols.
Proof.
  unfold scaled_size. rewrite has_pixels_spec. split.
  - intros [Hc Hr]. split.
    + destruct (Rle_dec (sqrt2_pow s) (IZR rows)) as [| Hn]; [done |].
      pose proof (side_not_positive rows s ltac:(lra)). lia.
    + destruct (Rle_dec (sqrt2_pow s) (IZR cols)) as [| Hn]; [done |].
      pose proof (side_not_positive cols s ltac:(lra)). lia.
  - intros [Hr Hc]. split; by apply side_positive.
Qed.

Lemma fits_spec rows cols s :
  (0 < s)%Z ->
  fits rows cols s <-> sqrt2_pow s <= IZR rows /\ sqrt2_pow s <= IZR cols.
Proof.
  intros Hs. unfold fits. rewrite <- scaled_size_has_pixels. split.
  - intros H. by apply H.
  - intros H _. split; [done |].
    apply scaled_size_has_pixels in H as [Hr Hc].
    pose proof (sqrt2_pow_increasing 0 s ltac:(lia)) as H1.
    change (sqrt2_pow 0) with 1 in H1.
    apply has_pixels_spec. split; apply lt_IZR; lra.
Qed.

Lemma fits_0 rows cols : fits rows cols 0.
Proof. intros H. lia. Qed.

(** Every scale of [range(0, n)] fits when the last one does. *)
Lemma fits_range rows cols n :
  sqrt2_pow (n - 1) <= IZR rows -> sqrt2_pow (n - 1) <= IZR cols ->
  Forall (fits rows cols) (py_range 0 n).
Proof.
  intros Hr Hc. apply Forall_forall. intros s Hs.
  assert (0 <= s < n)%Z as Hsn.
  { unfold py_range in Hs.
    apply list_elem_of_fmap in Hs as (k & -> & Hk%elem_of_seq). lia. }
  destruct (Z.eq_dec s 0%Z) as [-> | Hne]; [apply fits_0 |].
  apply fits_spec; [lia |].
  pose proof (sqrt2_pow_increasing s (n - 1) ltac:(lia)). lra.
Qed.

(** *** One iteration *)

Section LoopInvariant.

Variable cv2_sepFilter2D : ndarray -> ndarray -> ndarray -> ndarray.
Variable fftconvolve : ndarray -> ndarray -> ndarray.
Variable resample : ndarray -> Z * Z -> interpolation -> ndarray.
Variable filters : SingularityIndexFilters.
Variables rows cols : Z.

Let pass := scale_pass cv2_sepFilter2D fftconvolve resample filters rows cols.
Let up := upsampled_response cv2_sepFilter2D fftconvolve resample filters rows cols.

Lemma downscale_downscaled s fr :
  fits rows cols s ->
  downscale resample rows cols s fr
  = (set_I1 (downscaled resample rows cols s (I1 fr)) fr, inr tt).
Proof.
  intros Hfit. unfold downscale, downscaled.
  destruct (0 <? s)%Z eqn:Hs; [| by destruct fr].
  destruct Hfit as [Hsmall _]; [lia |].
  cbn. by rewrite resize_has_pixels.
Qed.

Lemma upsample_upsampled s img :
  fits rows cols s ->
  upsample resample rows cols s
    (scale_response cv2_sepFilter2D fftconvolve filters img).1
    (scale_response cv2_sepFilter2D fftconvolve filters img).2
  = inr (up s img).
Proof.
  intros Hfit. unfold up, upsample, upsampled_response.
  destruct (scale_response _ _ _ _) as [r a]. cbn [fst snd].
  destruct (0 <? s)%Z eqn:Hs; [| done].
  destruct Hfit as [_ Hfull]; [lia |].
  by rewrite !resize_has_pixels.
Qed.

(** An iteration at a scale that fits: the line is printed, the image
    downscaled, the response and the orientation stored and
    aggregated. *)
Lemma scale_pass_fits s fr :
  fits rows cols s ->
  pass s fr
  = aggregate filters s (length (store fr))
      (S (length (store fr)))
      {| I1 := downscaled resample rows cols s (I1 fr);
         store := (store fr
                   ++ [(up s (downscaled resample rows cols s (I1 fr))).1])
                  ++ [(up s (downscaled resample rows cols s (I1 fr))).2];
         vars := vars fr;
         stdout := stdout fr ++ [scale_line s] |}.
Proof.
  intros Hfit. unfold pass, scale_pass.
  cbn -[downscale upsample aggregate scale_response].
  rewrite downscale_downscaled by done.
  cbn -[upsample aggregate scale_response downscaled].
  rewrite upsample_upsampled by done.
  cbn -[aggregate downscaled up]. rewrite length_app. cbn [length].
  by rewrite Nat.add_1_r.
Qed.

(** An iteration at a scale whose size has no pixel: the line is printed
    and [cv2.resize] raises. *)
Lemma scale_pass_no_pixel s fr :
  (0 < s)%Z -> has_pixels (scaled_size rows cols s) = false ->
  pass s fr
  = (set_stdout (stdout fr ++ [scale_line s]) fr, inl (cv2_error "resize")).
Proof.
  intros Hs Hno. unfold pass, scale_pass, downscale.
  assert ((0 <? s)%Z = true) as -> by lia.
  cbn -[aggregate scale_response upsample].
  by rewrite resize_no_pixel.
Qed.

(** What holds of the pixels of the working image, of every stored
    array, and of the orientation map. *)
Variables PI PA PO : R -> Prop.

Hypothesis PA_add : forall x y, PA x -> PA y -> PA (x + y).
Hypothesis PA_scale : forall c x, PA x -> PA (c * x).
Hypothesis PA_square : forall x, PA x -> PA (x ^ 2).
Hypothesis PA_div : forall x y, PA x -> PA y -> PA (x / y).
Hypothesis PA_sqrt : forall x, PA x -> PA (sqrt x).
Hypothesis PI_downscale : forall img dsize,
  all PI img -> all PI (resample img dsize INTER_CUBIC).
Hypothesis PA_response : forall s img, all PI img -> all PA (up s img).1.
Hypothesis PA_angles : forall s img, all PI img -> all PA (up s img).2.
Hypothesis PO_angles : forall s img, all PI img -> all PO (up s img).2.

Let running := running PI PA PO.

Lemma PA_aadd a b : all PA a -> all PA b -> all PA (a + b)%A.
Proof. apply all_azip, PA_add. Qed.
Lemma PA_ascale c a : all PA a -> all PA (ascale c a).
Proof. apply all_amap. intros x. apply PA_scale. Qed.
Lemma PA_asquare a : all PA a -> all PA (asquare a).
Proof. apply all_amap, PA_square. Qed.
Lemma PA_adiv a b : all PA a -> all PA b -> all PA (a / b)%A.
Proof. apply all_azip, PA_div. Qed.
Lemma PA_asqrt a : all PA a -> all PA (asqrt a).
Proof. apply all_amap, PA_sqrt. Qed.

(** Every array of a store built from arrays that satisfy [PA]
    satisfies it. *)
Ltac stored :=
  repeat first
    [ assumption
    | apply Forall_app_2 | apply Forall_insert
    | apply Forall_cons_2 | apply Forall_nil_2
    | apply all_deref | apply all_setitem_mask | apply all_getitem_mask
    | apply PA_aadd | apply PA_ascale | apply PA_asquare
    | apply PA_adiv | apply PA_asqrt ].

(** The first scale binds every name. *)
Lemma aggregate_first fr lpsi langles :
  (lpsi < length (store fr))%nat -> (langles < length (store fr))%nat ->
  lpsi <> langles ->
  all PI (I1 fr) -> Forall (all PA) (store fr) ->
  all PO (default empty_array (store fr !! langles)) ->
  exists fr', aggregate filters 0 lpsi langles fr = (fr', inr tt)
              /\ running fr' /\ stdout fr' = stdout fr.
Proof.
  destruct fr as [img h v out]. cbn [store I1 vars stdout].
  intros Hpsi Hang Hne HI HA HO.
  unfold aggregate. cbn.
  eexists. split; [reflexivity |]. split; [| done].
  eapply Running; [unfold bound_to; cbn; reflexivity | ..]; cbn;
    rewrite ?length_app; cbn; try lia; try done.
  - stored.
  - rewrite <- app_assoc, lookup_app_l by lia. done.
Qed.

(** Every later scale keeps them bound. *)
Lemma aggregate_next fr s lpsi langles :
  s <> 0%Z -> running fr ->
  (langles < length (store fr))%nat ->
  psi_max (vars fr) <> Some langles ->
  all PO (default empty_array (store fr !! langles)) ->
  exists fr', aggregate filters s lpsi langles fr = (fr', inr tt)
              /\ running fr' /\ stdout fr' = stdout fr.
Proof.
  destruct fr as [img h v out].
  intros Hs [lmax lsum lo lw lp Hv Hmax Hsum Ho Hw Hp Hmo Hwo HI HA HO].
  cbn [store I1 vars stdout] in *. subst v. cbn [psi_max bound_to].
  intros Hang Hma HOa.
  unfold aggregate. assert ((s =? 0)%Z = false) as -> by lia. cbn.
  eexists. split; [reflexivity |]. split; [| done].
  eapply Running; [unfold bound_to; cbn; reflexivity | ..]; cbn;
    rewrite ?length_app, ?length_insert, ?length_app, ?length_insert; cbn; try lia; try done.
  - stored.
  - rewrite <- !app_assoc, lookup_app_l by lens.
    rewrite list_lookup_insert_eq by lens.
    cbn. apply all_setitem_mask.
    + rewrite lookup_app_l by lens.
      rewrite list_lookup_insert_ne by done. done.
    + apply all_getitem_mask.
      rewrite lookup_app_l by lens.
      rewrite list_lookup_insert_ne by (intros ->; by apply Hma). done.
Qed.

Lemma scale_pass_first fr :
  all PI (I1 fr) -> Forall (all PA) (store fr) ->
  exists fr', pass 0 fr = (fr', inr tt)
              /\ running fr' /\ stdout fr' = stdout fr ++ [scale_line 0].
Proof.
  destruct fr as [img h v out]. cbn [store I1 vars stdout].
  intros HI HA.
  rewrite scale_pass_fits by apply fits_0.
  cbn [store I1 vars stdout]. change (downscaled resample rows cols 0 img) with img.
  edestruct (aggregate_first
               {| I1 := img; store := (h ++ [(up 0 img).1]) ++ [(up 0 img).2];
                  vars := v; stdout := out ++ [scale_line 0] |}
               (length h) (S (length h)))
    as (fr' & Hrun & Hinv & Hout); cbn [store I1 vars stdout].
  1-3: lens.
  - done.
  - stored; auto.
  - replace (S (length h)) with (length (h ++ [(up 0 img).1])) by lens.
    rewrite list_lookup_middle by done. by apply PO_angles.
  - exists fr'. split; [exact Hrun |]. split; [exact Hinv |]. exact Hout.
Qed.

Lemma scale_pass_next fr s :
  (0 < s)%Z -> fits rows cols s -> running fr ->
  exists fr', pass s fr = (fr', inr tt)
              /\ running fr' /\ stdout fr' = stdout fr ++ [scale_line s].
Proof.
  destruct fr as [img h v out].
  intros Hs Hfit [lmax lsum lo lw lp Hv Hmax Hsum Ho Hw Hp Hmo Hwo HI HA HO].
  cbn [store I1 vars stdout] in *.
  rewrite scale_pass_fits by done.
  cbn [store I1 vars stdout].
  set (img' := downscaled resample rows cols s img).
  assert (all PI img') as HI'.
  { unfold img', downscaled. destruct (0 <? s)%Z; [by apply PI_downscale | done]. }
  edestruct (aggregate_next
               {| I1 := img'; store := (h ++ [(up s img').1]) ++ [(up s img').2];
                  vars := v; stdout := out ++ [scale_line s] |}
               s (length h) (S (length h)))
    as (fr' & Hrun & Hinv & Hout); cbn [store I1 vars stdout].
  - lia.
  - apply (Running _ _ _ _ lmax lsum lo lw lp); cbn [store I1 vars stdout];
      try done; try lens.
    + stored; auto.
    + rewrite <- app_assoc, lookup_app_l by lia. done.
  - lens.
  - rewrite Hv. cbn. intros [= ->]. revert Hmax. lens.
  - replace (S (length h)) with (length (h ++ [(up s img').1])) by lens.
    rewrite list_lookup_middle by done. by apply PO_angles.
  - exists fr'. split; [exact Hrun |]. split; [exact Hinv |]. exact Hout.
Qed.

Lemma for_each_later scales fr :
  Forall (fun s => (0 < s)%Z) scales -> Forall (fits rows cols) scales ->
  running fr ->
  exists fr', for_each scales pass fr = (fr', inr tt)
              /\ running fr'
              /\ stdout fr' = stdout fr ++ (scale_line <$> scales).
Proof.
  intros Hpos. revert fr.
  induction Hpos as [| s scales Hs _ IH]; intros fr Hfit Hrun.
  - exists fr. cbn. by rewrite app_nil_r.
  - apply Forall_cons in Hfit as [Hfit Hfits].
    destruct (scale_pass_next fr s Hs Hfit Hrun) as (fr1 & E1 & Hrun1 & Hout1).
    destruct (IH fr1 Hfits Hrun1) as (fr2 & E2 & Hrun2 & Hout2).
    exists fr2. cbn [for_each]. rewrite (bindM_inr _ _ _ _ _ E1), E2.
    split; [done |]. split; [done |].
    rewrite Hout2, Hout1, <- app_assoc. done.
Qed.

(** The loop over [range(0, n)] with [n >= 1], every scale of which
    fits, runs to its end and leaves every aggregate bound. *)
Lemma for_each_scale n fr :
  (1 <= n)%Z -> Forall (fits rows cols) (py_range 0 n) ->
  all PI (I1 fr) -> Forall (all PA) (store fr) ->
  exists fr', for_each (py_range 0 n) pass fr = (fr', inr tt)
              /\ running fr'
              /\ stdout fr' = stdout fr ++ (scale_line <$> py_range 0 n).
Proof.
  intros Hn Hfit HI HA. rewrite py_range_cons in Hfit |- * by lia.
  apply Forall_cons in Hfit as [_ Hfit].
  destruct (scale_pass_first fr HI HA) as (fr1 & E1 & Hrun1 & Hout1).
  destruct (for_each_later (py_range (0 + 1) n) fr1) as (fr2 & E2 & Hrun2 & Hout2);
    [| done | done |].
  { apply Forall_forall. intros s Hs%py_range_lower. lia. }
  exists fr2. cbn [for_each fmap list_fmap].
  rewrite (bindM_inr _ _ _ _ _ E1), E2.
  split; [done |]. split; [done |].
  rewrite Hout2, Hout1, <- app_assoc. done.
Qed.

Lemma finalize_running fr :
  running fr ->
  exists fr' psi_out width_out orient_out,
    finalize fr = (fr', inr (psi_out, width_out, orient_out))
    /\ all PA psi_out /\ all PA width_out /\ all PO orient_out
    /\ stdout fr' = stdout fr.
Proof.
  destruct fr as [img h v out].
  intros [lmax lsum lo lw lp Hv Hmax Hsum Ho Hw Hp Hmo Hwo HI HA HO].
  cbn [store I1 vars stdout] in *. subst v.
  unfold finalize. cbn.
  do 4 eexists. split; [reflexivity |].
  split; [stored |]. split; [stored |]. split; [| done].
  rewrite lookup_app_l by lens.
  rewrite list_lookup_insert_ne by done. done.
Qed.

End LoopInvariant.


(** ** The call *)

Lemma shape_normalize a : shape (normalize a) = shape a.
Proof.
  unfold normalize, rescale_uint16, rescale_uint8.
  destruct (dtype a) eqn:E; cbn; rewrite ?E; done.
Qed.

Lemma normalize_float a : dtype a = float64 -> normalize a = a.
Proof. intros H. unfold normalize, rescale_uint16, rescale_uint8. rewrite H; cbn; rewrite ?H; done. Qed.

Lemma dtype_normalize a : dtype (normalize a) = float64.
Proof.
  unfold normalize, rescale_uint16, rescale_uint8.
  destruct (dtype a) eqn:E; cbn; rewrite ?E; done.
Qed.

Lemma normalize_uint8 a :
  dtype a = uint8 -> normalize a = farray (shape a) ((fun x => x / 255) <$> data a).
Proof. intros H. unfold normalize, rescale_uint16, rescale_uint8. rewrite H; cbn; rewrite ?H; done. Qed.

Lemma normalize_uint16 a :
  dtype a = uint16 -> normalize a = farray (shape a) ((fun x => x / 65535) <$> data a).
Proof. intros H. unfold normalize, rescale_uint16, rescale_uint8. rewrite H; cbn; rewrite ?H; done. Qed.

Lemma normalize_idempotent a : normalize (normalize a) = normalize a.
Proof. apply normalize_float, dtype_normalize. Qed.

(** Nothing but the first statement of an iteration prints. *)
Lemma aggregate_stdout filters s lpsi langles fr :
  stdout (aggregate filters s lpsi langles fr).1 = stdout fr.
Proof.
  destruct fr as [img h [pm ps po pw pp] out].
  unfold aggregate. destruct (s =? 0)%Z; cbn; [done |].
  destruct pm; cbn; [| done]. destruct ps; cbn; [| done].
  destruct po; cbn; [| done]. destruct pw; cbn; [| done].
  destruct pp; cbn; done.
Qed.

Lemma finalize_stdout fr : stdout (finalize fr).1 = stdout fr.
Proof.
  destruct fr as [img h [pm ps po pw pp] out].
  unfold finalize. cbn.
  destruct pw; cbn; [| done]. destruct ps; cbn; [| done].
  destruct pp; cbn; [| done]. destruct po; cbn; done.
Qed.

Section Calls.
Variable cv2_sepFilter2D : ndarray -> ndarray -> ndarray -> ndarray.
Variable fftconvolve : ndarray -> ndarray -> ndarray.
Variable resample : ndarray -> Z * Z -> interpolation -> ndarray.

Let body := applyMMSI_body cv2_sepFilter2D fftconvolve resample.
Let call := applyMMSI cv2_sepFilter2D fftconvolve resample.

(** Every iteration prints its line first, however it ends. *)
Lemma scale_pass_stdout filters rows cols s fr :
  stdout (scale_pass cv2_sepFilter2D fftconvolve resample filters rows cols
            s fr).1
  = stdout fr ++ [scale_line s].
Proof.
  destruct fr as [img h v out].
  unfold scale_pass, downscale, upsample, cv2_resize.
  destruct (0 <? s)%Z;
    [destruct (has_pixels (scaled_size rows cols s));
     [destruct (has_pixels (cols, rows)) |] |];
    cbn -[aggregate scale_response]; rewrite ?aggregate_stdout; done.
Qed.

(** The loop prints the lines of the scales it started, in order. *)
Lemma for_each_stdout filters rows cols scales : forall fr,
  exists k,
    stdout (for_each scales
              (scale_pass cv2_sepFilter2D fftconvolve resample filters
                 rows cols) fr).1
    = stdout fr ++ (scale_line <$> take k scales)
    /\ (scales <> [] -> (1 <= k)%nat).
Proof.
  induction scales as [| s scales IH]; intros fr.
  - exists 0%nat. cbn. by rewrite app_nil_r.
  - pose proof (scale_pass_stdout filters rows cols s fr) as Hline.
    cbn [for_each]. unfold bindM.
    destruct (scale_pass _ _ _ _ _ _ s fr) as [fr1 [e | []]].
    + exists 1%nat. cbn [fst] in *. rewrite Hline.
      split; [| lia]. cbn [take]. by rewrite take_0.
    + destruct (IH fr1) as (k & Hk & _). exists (S k).
      cbn [fst] in Hline. rewrite Hk, Hline, <- app_assoc. split; [done | lia].
Qed.

Lemma body_many_dimensions img filters :
  (2 < ndim img)%nat ->
  body filters (enter img) = (enter (normalize img), inl unsupported_shape).
Proof.
  intros H. unfold body, applyMMSI_body. cbn -[normalize Nat.ltb].
  unfold ndim in *. rewrite shape_normalize.
  apply Nat.ltb_lt in H. by rewrite H.
Qed.

Lemma body_two_dimensions img filters rows cols :
  shape img = [rows; cols] ->
  body filters (enter img) =
    scales_then_finalize cv2_sepFilter2D fftconvolve resample filters rows cols (enter (normalize img)).
Proof.
  intros H. unfold body, applyMMSI_body.
  cbn -[normalize scales_then_finalize Nat.ltb unpack_shape].
  unfold ndim, unpack_shape. rewrite shape_normalize, H.
  cbn -[normalize scales_then_finalize].
  reflexivity.
Qed.


Lemma body_few_dimensions img filters :
  (ndim img < 2)%nat ->
  exists msg, body filters (enter img) = (enter (normalize img), inl (ValueError msg))
              /\ ValueError msg <> unsupported_shape.
Proof.
  intros H. unfold body, applyMMSI_body.
  cbn -[normalize scales_then_finalize Nat.ltb unpack_shape].
  unfold ndim, unpack_shape in *. rewrite shape_normalize.
  destruct (shape img) as [| r [| c [| d sh]]]; cbn in H; try lia;
    cbn -[normalize]; eexists; (split; [reflexivity | discriminate]).
Qed.

(** With no scale to run, the final step reads a name that was never
    assigned. *)
Lemma no_scale filters rows cols fr :
  (nrScales filters <= 0)%Z -> widthMap (vars fr) = None ->
  scales_then_finalize cv2_sepFilter2D fftconvolve resample filters rows cols fr =
    (fr, inl (UnboundLocalError "widthMap")).
Proof.
  intros Hn Hw. unfold scales_then_finalize.
  rewrite py_range_empty by done.
  destruct fr as [img h [pm ps po pw pp] out]. cbn in Hw. subst pw. done.
Qed.

(** With at least one scale, every scale of which fits, the loop and the
    final step run to the end. *)
Lemma some_scale filters rows cols fr :
  (1 <= nrScales filters)%Z ->
  Forall (fits rows cols) (py_range 0 (nrScales filters)) ->
  exists fr' out,
    scales_then_finalize cv2_sepFilter2D fftconvolve resample filters rows cols fr = (fr', inr out)
    /\ stdout fr' = stdout fr ++ (scale_line <$> py_range 0 (nrScales filters)).
Proof.
  intros Hn Hfit. unfold scales_then_finalize.
  pose (T := fun _ : R => True).
  assert (forall a, all T a) as HT by (intros a; by apply Forall_true).
  destruct (for_each_scale cv2_sepFilter2D fftconvolve resample filters
              rows cols T T T) with (n := nrScales filters) (fr := fr)
    as (fr1 & E1 & Hrun & Hout1); try done.
  { apply Forall_forall. intros; apply HT. }
  destruct (finalize_running T T T) with (fr := fr1)
    as (fr2 & p & w & o & E2 & _ & _ & _ & Hout2); try done.
  exists fr2, (p, w, o).
  rewrite (bindM_inr _ _ _ _ _ E1), E2. split; [done |]. by rewrite Hout2.
Qed.

(** Whatever the outcome, what the loop and the final step print are the
    lines of the scales that were started. *)
Lemma scales_then_finalize_stdout filters rows cols fr :
  exists k,
    stdout (scales_then_finalize cv2_sepFilter2D fftconvolve resample filters
              rows cols fr).1
    = stdout fr ++ (scale_line <$> take k (py_range 0 (nrScales filters)))
    /\ ((1 <= nrScales filters)%Z -> (1 <= k)%nat).
Proof.
  destruct (for_each_stdout filters rows cols (py_range 0 (nrScales filters)) fr)
    as (k & Hk & Hpos).
  exists k. split.
  - unfold scales_then_finalize, bindM.
    destruct (for_each _ _ fr) as [fr1 [e | []]]; [exact Hk |].
    rewrite finalize_stdout. exact Hk.
  - intros Hn. apply Hpos. rewrite py_range_cons by lia. done.
Qed.

Lemma call_normalize img filters :
  call img filters = call (normalize img) filters.
Proof.
  unfold call, applyMMSI, applyMMSI_body.
  cbn -[normalize scales_then_finalize Nat.ltb unpack_shape].
  by rewrite normalize_idempotent.
Qed.

Lemma call_many_dimensions img filters :
  (2 < ndim img)%nat -> call img filters = ([], inl unsupported_shape).
Proof.
  intros H. unfold call, applyMMSI.
  fold body. by rewrite body_many_dimensions.
Qed.

(** C3: the call fails with the error for unsupported shapes exactly
    when the input has more than two dimensions.  It then fails before the
    loop: the frame it leaves holds the rescaled input and nothing else,
    no array was computed, nothing was printed and there is no result.  A
    two-dimensional input goes on to the loop over the scales: what the
    call prints then are the lines of the scales it started, in order,
    the line of scale 0 among them as soon as there is one scale; the
    loop may still stop at a later scale. *)
Theorem C3_unsupported_shape_iff_more_than_two_dimensions img filters :
  ((call img filters).2 = inl unsupported_shape <-> (2 < ndim img)%nat)
  /\ ((2 < ndim img)%nat ->
      body filters (enter img) = (enter (normalize img), inl unsupported_shape)
      /\ call img filters = ([], inl unsupported_shape))
  /\ (ndim img = 2%nat ->
        exists rows cols,
          shape img = [rows; cols]
          /\ body filters (enter img) =
               scales_then_finalize cv2_sepFilter2D fftconvolve resample
                 filters rows cols (enter (normalize img))
          /\ (call img filters).1
               `prefix_of` (scale_line <$> py_range 0 (nrScales filters))
          /\ ((1 <= nrScales filters)%Z ->
              head (call img filters).1 = Some (scale_line 0))).
Proof.
  assert (forall rows cols fr,
            (scales_then_finalize cv2_sepFilter2D fftconvolve resample
               filters rows cols fr).2 <> inl unsupported_shape) as Hloop.
  { intros rows cols fr.
    destruct (Z_le_gt_dec (nrScales filters) 0) as [Hn | Hn].
    - unfold scales_then_finalize. rewrite py_range_empty by done.
      destruct fr as [i h [pm ps po pw pp] out]. cbn.
      destruct pw; cbn; [| done]. destruct ps; cbn; [| done].
      destruct pp; cbn; [| done]. destruct po; cbn; done.
    - unfold scales_then_finalize, bindM.
      destruct (for_each _ _ fr) as [fr1 [e | []]] eqn:Eloop; cbn [snd].
      + intros [= ->]. revert fr fr1 Eloop.
        generalize (py_range 0 (nrScales filters)).
        induction l as [| s l IHl]; intros fr fr1; [done |].
        cbn [for_each]. unfold bindM.
        destruct (scale_pass _ _ _ _ _ _ s fr) as [fr2 [e | []]] eqn:Epass;
          [| by apply IHl].
        intros [= -> He]. revert Epass. subst e.
        destruct fr as [i h [pm ps po pw pp] out].
        unfold scale_pass, downscale, upsample, cv2_resize, aggregate.
        destruct (0 <? s)%Z;
          [destruct (has_pixels (scaled_size rows cols s));
           [destruct (has_pixels (cols, rows)) |] |];
          destruct (s =? 0)%Z; cbn -[scale_response]; try done;
          destruct pm; cbn -[scale_response]; try done;
          destruct ps; cbn -[scale_response]; try done;
          destruct po; cbn -[scale_response]; try done;
          destruct pw; cbn -[scale_response]; try done;
          destruct pp; cbn -[scale_response]; done.
      + destruct fr1 as [i h [pm ps po pw pp] out]. unfold finalize. cbn.
        destruct pw; cbn; [| done]. destruct ps; cbn; [| done].
        destruct pp; cbn; [| done]. destruct po; cbn; done. }
  assert (ndim img = 2%nat ->
          exists rows cols, shape img = [rows; cols]
            /\ body filters (enter img) =
                 scales_then_finalize cv2_sepFilter2D fftconvolve resample
                   filters rows cols (enter (normalize img))
            /\ (call img filters).1
                 `prefix_of` (scale_line <$> py_range 0 (nrScales filters))
            /\ ((1 <= nrScales filters)%Z ->
                head (call img filters).1 = Some (scale_line 0))
            /\ (call img filters).2 <> inl unsupported_shape) as Htwo.
  { intros H2. unfold ndim in H2.
    destruct (shape img) as [| rows [| cols [| d sh]]] eqn:Hsh; try done.
    exists rows, cols. split; [done |].
    pose proof (body_two_dimensions img filters rows cols Hsh) as Hbody.
    split; [exact Hbody |].
    unfold call, applyMMSI. fold body. rewrite Hbody.
    destruct (scales_then_finalize_stdout filters rows cols
                (enter (normalize img))) as (k & Hk & Hpos).
    pose proof (Hloop rows cols (enter (normalize img))) as Hno.
    destruct (scales_then_finalize _ _ _ _ _ _ _) as [fr' r].
    cbn [fst snd stdout enter app] in *. rewrite Hk.
    split; [| split; [| done]].
    - exists (scale_line <$> drop k (py_range 0 (nrScales filters))).
      by rewrite <- fmap_app, take_drop.
    - intros Hn. specialize (Hpos Hn).
      rewrite py_range_cons by lia.
      destruct k as [| k]; [lia | done]. }
  split; [split |].
  - intros Herr.
    destruct (lt_dec 2 (ndim img)) as [| Hle]; [done | exfalso].
    destruct (decide (ndim img = 2%nat)) as [H2 | Hne].
    + destruct (Htwo H2) as (? & ? & _ & _ & _ & _ & Hno). done.
    + destruct (body_few_dimensions img filters) as (msg & E & Hmsg); [lia |].
      unfold call, applyMMSI in Herr. fold body in Herr. rewrite E in Herr.
      cbn in Herr. congruence.
  - intros H. by rewrite call_many_dimensions.
  - split.
    + intros H. split; [by apply body_many_dimensions |].
      by apply call_many_dimensions.
    + intros H2. destruct (Htwo H2) as (rows & cols & ? & ? & ? & ? & _).
      by exists rows, cols.
Qed.

(** C10: with [nrScales <= 0] no iteration of the loop runs, so nothing is
    printed, and the call has no result: a two-dimensional input gets to the
    final step, which fails with [UnboundLocalError] on [widthMap], the first
    name it reads. *)
Theorem C10_no_scale_fails_when_finalizing img filters :
  (nrScales filters <= 0)%Z ->
  (call img filters).1 = []
  /\ (exists e, (call img filters).2 = inl e)
  /\ (ndim img = 2%nat ->
        call img filters = ([], inl (UnboundLocalError "widthMap"))).
Proof.
  intros Hn.
  assert (ndim img = 2%nat ->
          call img filters = ([], inl (UnboundLocalError "widthMap"))) as Htwo.
  { intros H2. unfold ndim in H2.
    destruct (shape img) as [| rows [| cols [| d sh]]] eqn:Hsh; try done.
    unfold call, applyMMSI. fold body.
    rewrite (body_two_dimensions img filters rows cols Hsh).
    by rewrite no_scale. }
  destruct (lt_dec 2 (ndim img)) as [Hmany | Hle].
  { rewrite call_many_dimensions by done. split; [done |]. split; [by eexists | lia]. }
  destruct (decide (ndim img = 2%nat)) as [H2 | Hne].
  { rewrite Htwo by done. split; [done |]. split; [by eexists | done]. }
  destruct (body_few_dimensions img filters) as (msg & E & _); [lia |].
  unfold call, applyMMSI. fold body. rewrite E. cbn.
  split; [done |]. split; [by eexists | done].
Qed.

(** C8: an image of dtype [uint8] is divided by 255 and one of dtype
    [uint16] by 65535 before anything else.  When the two rescaled images
    are the same floating-point image, the three calls return the same
    response, width and orientation maps. *)
Theorem C8_unsigned_inputs_are_rescaled a b c filters :
  dtype a = uint8 -> dtype b = uint16 -> dtype c = float64 ->
  shape a = shape c -> shape b = shape c ->
  (fun x => x / 255) <$> data a = data c ->
  (fun x => x / 65535) <$> data b = data c ->
  normalize a = c /\ normalize b = c
  /\ call a filters = call c filters /\ call b filters = call c filters.
Proof.
  intros Da Db Dc Sa Sb Ea Eb.
  assert (normalize a = c) as Na.
  { rewrite normalize_uint8 by done. destruct c as [dc sc datc].
    simpl in *. unfold farray. congruence. }
  assert (normalize b = c) as Nb.
  { rewrite normalize_uint16 by done. destruct c as [dc sc datc].
    simpl in *. unfold farray. congruence. }
  split; [done |]. split; [done |].
  rewrite (call_normalize a), (call_normalize b), Na, Nb. done.
Qed.

End Calls.


(** ** The final step *)

Lemma place_length m vals d : length (place m vals d) = length d.
Proof.
  revert vals d. induction m as [| [] m IH]; intros vals [| x d]; cbn; try done.
  - destruct vals; cbn; by rewrite IH.
  - by rewrite IH.
Qed.

(** Writing back [f] of the selected elements changes the selected
    positions, and only those. *)
Lemma place_zip_compress_lookup (f : R -> R -> R) (m : list bool)
    (dw ds : list R) (i : nat) (b : bool) (wi si : R) :
  m !! i = Some b -> dw !! i = Some wi -> ds !! i = Some si ->
  place m (zip_with f (compress m dw) (compress m ds)) dw !! i
  = Some (if b then f wi si else wi).
Proof.
  revert dw ds i.
  induction m as [| b' m IH]; intros [| x dw] [| y ds] i Hm Hw Hs; try done.
  destruct i as [| i]; cbn in Hm, Hw, Hs.
  - injection Hm as ->. injection Hw as ->. injection Hs as ->.
    by destruct b.
  - destruct b'; cbn; by apply IH.
Qed.

Lemma compress_positive ds :
  Forall (fun d => 0 < d) (compress ((fun x => Rgtb x 0) <$> ds) ds).
Proof.
  induction ds as [| x ds IH]; cbn; [constructor |].
  destruct (Rgtb x 0) eqn:E; [| done].
  constructor; [by apply Rgtb_spec | done].
Qed.

(** C6: in the final step every divisor is a positive running sum, so no
    division by zero is reached; the width estimate is the accumulated
    width divided by the running sum where the running sum is positive,
    and the accumulated width, unchanged, where it is not. *)
Theorem C6_width_divided_only_where_sum_positive fr lw lsum lp lo w sum :
  widthMap (vars fr) = Some lw -> psi_sum (vars fr) = Some lsum ->
  psi (vars fr) = Some lp -> orient (vars fr) = Some lo ->
  store fr !! lw = Some w -> store fr !! lsum = Some sum ->
  Forall (fun d => 0 < d) (data (getitem_mask sum (agt0 sum)))
  /\ exists fr' psi_out width_out orient_out,
       finalize fr = (fr', inr (psi_out, width_out, orient_out))
       /\ shape width_out = shape w
       /\ length (data width_out) = length (data w)
       /\ forall i wi si,
            data w !! i = Some wi -> data sum !! i = Some si ->
            (0 < si -> data width_out !! i = Some (wi / si))
            /\ (si <= 0 -> data width_out !! i = Some wi).
Proof.
  destruct fr as [img h [pm ps po pw pp] out]. cbn [vars store].
  cbn [widthMap psi_sum psi orient].
  intros -> -> -> -> Hw Hsum.
  split; [apply compress_positive |].
  unfold finalize. cbn. rewrite Hw, Hsum. cbn.
  do 4 eexists. split; [reflexivity |].
  assert (lw < length h)%nat as Hlw by (by eapply lookup_lt_Some).
  rewrite lookup_app_l by (by rewrite length_insert).
  rewrite list_lookup_insert_eq by done. cbn.
  split; [done |]. split; [apply place_length |].
  intros i wi si Hwi Hsi.
  assert (agt0 sum !! i = Some (Rgtb si 0)) as Hm.
  { unfold agt0. by rewrite list_lookup_fmap, Hsi. }
  rewrite (place_zip_compress_lookup Rdiv _ _ _ i _ wi si Hm Hwi Hsi).
  split; intros H.
  - by rewrite Rgtb_true.
  - by rewrite Rgtb_false.
Qed.

(** ** The running sum *)

Lemma lookup_fresh (L t1 t2 : list ndarray) (x O : ndarray) (lo : nat) :
  (lo < length L)%nat ->
  ((<[lo:=O]> (L ++ [x]) ++ t1) ++ t2) !! length L = Some x.
Proof.
  intros Hlo.
  rewrite <- app_assoc, lookup_app_l by lens.
  rewrite list_lookup_insert_ne by lia.
  by apply list_lookup_middle.
Qed.

(** From scale 2 on the running sum is an object of its own, and each
    scale adds its response to it. *)
Lemma aggregate_all_later filters rest : forall fr lmax lsum lo lw lp S,
  Forall (fun p => (0 < p.1.1)%Z) rest ->
  vars fr = bound_to lmax lsum lo lw lp ->
  (lmax < length (store fr))%nat -> (lo < length (store fr))%nat ->
  lsum <> lmax -> lsum <> lo ->
  store fr !! lsum = Some S ->
  exists fr' S',
    aggregate_all filters rest fr = (fr', inr tt)
    /\ value_of psi_sum fr' = Some S'
    /\ data S' = foldl add_response (data S) rest.
Proof.
  induction rest as [| [[s r] a] rest IH];
    intros fr lmax lsum lo lw lp S Hpos Hv Hmax Ho Hsm Hso HS.
  - exists fr, S. cbn. split; [done |]. split; [| done].
    unfold value_of. by rewrite Hv.
  - apply Forall_cons in Hpos as [Hs Hpos]. cbn [fst] in Hs.
    destruct fr as [img h v out]. cbn [vars store] in *. subst v.
    assert (lsum < length h)%nat as Hsum by (by eapply lookup_lt_Some).
    cbn [aggregate_all]. unfold aggregate.
    assert ((s =? 0)%Z = false) as Es by lia.
    cbn. rewrite Es. cbn.
    set (H2 := (h ++ [r]) ++ [a]).
    assert (H2 !! length h = Some r) as E1.
    { unfold H2. rewrite <- app_assoc. by apply list_lookup_middle. }
    rewrite !E1. cbn [from_option Datatypes.id].
    set (m := default empty_array (H2 !! lmax)).
    set (Mx := setitem_mask m (agt r m) (getitem_mask r (agt r m))).
    set (H3 := <[lmax:=Mx]> H2).
    assert (H3 !! lsum = Some S) as E2.
    { unfold H3, H2. rewrite list_lookup_insert_ne by done.
      rewrite <- app_assoc. by rewrite lookup_app_l. }
    assert (H3 !! length h = Some r) as E3.
    { unfold H3. rewrite list_lookup_insert_ne by lia. exact E1. }
    rewrite !E2, !E3. cbn [from_option Datatypes.id].
    match goal with
    | |- exists _ _, aggregate_all _ _ ?F = _ /\ _ =>
        edestruct (IH F) as (fr' & S' & E & Hval & Hdata)
    end; [exact Hpos | cbn; unfold bound_to; reflexivity | cbn .. | ].
    + unfold H3, H2. lens.
    + unfold H3, H2. lens.
    + unfold H3, H2. lens.
    + unfold H3, H2. lens.
    + apply lookup_fresh. unfold H3, H2. lens.
    + exists fr', S'. split; [exact E |]. split; [exact Hval |].
      rewrite Hdata. done.
Qed.

(** The running sum after all scales, for scale 0 followed by positive
    scales: at scale 1 the response is added to the running maximum. *)
Lemma aggregate_all_sum filters p0 a0 rest fr :
  Forall (fun p => (0 < p.1.1)%Z) rest ->
  exists fr' sum,
    aggregate_all filters ((0%Z, p0, a0) :: rest) fr = (fr', inr tt)
    /\ value_of psi_sum fr' = Some sum
    /\ data sum = running_sum ((0%Z, p0, a0) :: rest).
Proof.
  intros Hpos. rename p0 into r0.
  destruct fr as [img h v out].
  cbn [aggregate_all]. unfold aggregate. cbn.
  set (H2 := (h ++ [r0]) ++ [a0]).
  assert (H2 !! length h = Some r0) as E1.
  { unfold H2. rewrite <- app_assoc. by apply list_lookup_middle. }
  rewrite !E1. cbn [from_option Datatypes.id].
  destruct rest as [| [[s1 r1] a1] rest].
  { cbn. do 2 eexists. split; [reflexivity |]. split; [| reflexivity].
    unfold value_of. cbn.
    unfold H2. rewrite <- !app_assoc. by apply list_lookup_middle. }
  apply Forall_cons in Hpos as [Hs1 Hpos]. cbn [fst] in Hs1.
  assert ((s1 =? 0)%Z = false) as Es by lia.
  cbn [aggregate_all]. unfold aggregate. cbn. rewrite Es. cbn.
  set (H4 := ((H2 ++ _) ++ _)).
  set (H6 := (H4 ++ [r1]) ++ [a1]).
  assert (H6 !! length H4 = Some r1) as E2.
  { unfold H6. rewrite <- app_assoc. by apply list_lookup_middle. }
  assert (H6 !! length h = Some r0) as E3.
  { unfold H6, H4, H2. rewrite <- !app_assoc. by apply list_lookup_middle. }
  rewrite !E2, !E3. cbn [from_option Datatypes.id].
  set (Mx := setitem_mask r0 (agt r1 r0) (getitem_mask r1 (agt r1 r0))).
  set (H7 := <[length h:=Mx]> H6).
  assert (length h < length H6)%nat as Hlt by (unfold H6, H4, H2; lens).
  assert (H7 !! length h = Some Mx) as E4.
  { unfold H7. by rewrite list_lookup_insert_eq. }
  assert (H7 !! length H4 = Some r1) as E5.
  { unfold H7. rewrite list_lookup_insert_ne by (unfold H4, H2; lens).
    exact E2. }
  rewrite !E4, !E5. cbn [from_option Datatypes.id].
  match goal with
  | |- exists _ _, aggregate_all _ _ ?F = _ /\ _ =>
      edestruct (aggregate_all_later filters rest F)
        as (fr' & S' & E & Hval & Hdata)
  end; [exact Hpos | cbn; unfold bound_to; reflexivity | cbn .. | ].
  + unfold H7. lens.
  + unfold H7, H6, H4, H2. lens.
  + unfold H7. lens.
  + unfold H7, H6, H4, H2. lens.
  + apply lookup_fresh. unfold H7, H6, H4, H2. lens.
  + exists fr', S'. split; [exact E |]. split; [exact Hval |].
    rewrite Hdata. done.
Qed.

(** Pixel by pixel. *)
Lemma place_compress_lookup (m : list bool) (new old : list R)
    (i : nat) (b : bool) (x y : R) :
  m !! i = Some b -> old !! i = Some x -> new !! i = Some y ->
  place m (compress m new) old !! i = Some (if b then y else x).
Proof.
  revert new old i.
  induction m as [| b' m IH]; intros [| y' new] [| x' old] i Hm Ho Hn; try done.
  destruct i as [| i]; cbn in Hm, Ho, Hn.
  - injection Hm as ->. injection Ho as ->. injection Hn as ->.
    by destruct b.
  - destruct b'; cbn; by apply IH.
Qed.

Lemma overtaken_lookup (r0 r1 : list R) (i : nat) (x0 x1 : R) :
  r0 !! i = Some x0 -> r1 !! i = Some x1 ->
  overtaken r0 r1 !! i = Some (Rmax x0 x1).
Proof.
  intros H0 H1. unfold overtaken.
  rewrite (place_compress_lookup _ r1 r0 i (Rgtb x1 x0) x0 x1); try done.
  - f_equal. unfold Rgtb, Rmax.
    destruct (Rlt_dec x0 x1), (Rle_dec x0 x1); try done; lra.
  - by rewrite lookup_zip_with, H1, H0.
Qed.

Lemma foldl_add_response_lookup rest : forall (acc : list R) (i : nat) (x : R),
  acc !! i = Some x ->
  Forall (fun p => is_Some (response_of p !! i)) rest ->
  foldl add_response acc rest !! i
  = Some (x + foldr Rplus 0 ((fun p => default 0 (response_of p !! i)) <$> rest)).
Proof.
  induction rest as [| p rest IH]; intros acc i x Hx Hall.
  - cbn. rewrite Hx. f_equal. lra.
  - apply Forall_cons in Hall as [[y Hy] Hall].
    cbn [foldl fmap list_fmap foldr]. rewrite Hy. cbn [from_option Datatypes.id].
    rewrite (IH _ i (x + y)); [f_equal; lra | | done].
    unfold add_response. by rewrite lookup_zip_with, Hx, Hy.
Qed.

(** With two scales or more the running sum at a pixel is the sum of the
    responses plus what the response of scale 1 exceeds the response of
    scale 0 by. *)
Lemma running_sum_lookup p0 p1 rest (i : nat) (x0 x1 : R) :
  response_of p0 !! i = Some x0 -> response_of p1 !! i = Some x1 ->
  Forall (fun p => is_Some (response_of p !! i)) rest ->
  running_sum (p0 :: p1 :: rest) !! i
  = Some (sum_of_responses (p0 :: p1 :: rest) i + (Rmax x0 x1 - x0)).
Proof.
  intros H0 H1 Hall. unfold running_sum, sum_of_responses.
  rewrite (foldl_add_response_lookup rest _ i (Rmax x0 x1 + x1)); [| | done].
  - cbn [fmap list_fmap foldr]. rewrite H0, H1. cbn [from_option Datatypes.id].
    f_equal. lra.
  - rewrite lookup_zip_with, (overtaken_lookup _ _ i x0 x1 H0 H1), H1. done.
Qed.

(** ** The loop as an aggregation of its outputs *)

(** The aggregation reads and writes the store and the locals only. *)
Lemma aggregate_memory filters s lpsi langles fr1 fr2 :
  store fr1 = store fr2 -> vars fr1 = vars fr2 ->
  memory (aggregate filters s lpsi langles fr1)
  = memory (aggregate filters s lpsi langles fr2)
  /\ I1 (aggregate filters s lpsi langles fr1).1 = I1 fr1.
Proof.
  destruct fr1 as [img1 h v out1], fr2 as [img2 h2 v2 out2].
  cbn [store vars]. intros <- <-.
  unfold aggregate, memory. destruct (s =? 0)%Z; cbn; [done |].
  destruct v as [pm ps po pw pp]. cbn.
  destruct pm; cbn; [| done]. destruct ps; cbn; [| done].
  destruct po; cbn; [| done]. destruct pw; cbn; [| done].
  destruct pp; cbn; done.
Qed.

Section LoopOutputs.

Variable cv2_sepFilter2D : ndarray -> ndarray -> ndarray -> ndarray.
Variable fftconvolve : ndarray -> ndarray -> ndarray.
Variable resample : ndarray -> Z * Z -> interpolation -> ndarray.
Variable filters : SingularityIndexFilters.
Variables rows cols : Z.

Let pass := scale_pass cv2_sepFilter2D fftconvolve resample filters rows cols.
Let outputs :=
  scale_outputs cv2_sepFilter2D fftconvolve resample filters rows cols.

(** Over scales that fit, the loop leaves in memory what the aggregation
    of its outputs leaves. *)
Lemma for_each_memory scales : forall fr1 fr2,
  Forall (fits rows cols) scales ->
  store fr1 = store fr2 -> vars fr1 = vars fr2 ->
  memory (for_each scales pass fr1)
  = memory (aggregate_all filters (outputs scales (I1 fr1)) fr2).
Proof.
  induction scales as [| s scales IH]; intros fr1 fr2 Hfit Hst Hv.
  - cbn. unfold memory. cbn. by rewrite Hst, Hv.
  - apply Forall_cons in Hfit as [Hfit Hfits].
    destruct fr1 as [img1 h v out1], fr2 as [img2 h2 v2 out2].
    cbn [store vars I1] in *. subst h2 v2.
    cbn [for_each outputs scale_outputs aggregate_all].
    unfold bindM at 1. unfold pass at 1.
    rewrite scale_pass_fits by done.
    cbn -[upsampled_response aggregate for_each aggregate_all
          scale_outputs downscaled].
    set (img' := downscaled resample rows cols s img1).
    set (up := upsampled_response _ _ _ _ _ _ _ _).
    replace (S (length h)) with (length (h ++ [up.1])) by lens.
    match goal with
    | |- memory (match aggregate _ _ _ _ ?F1 with _ => _ end)
         = memory (match aggregate _ _ _ _ ?F2 with _ => _ end) =>
        destruct (aggregate_memory filters s (length h) (length (h ++ [up.1]))
                    F1 F2 eq_refl eq_refl) as [Hmem HI1];
        destruct (aggregate filters s (length h) (length (h ++ [up.1])) F1)
          as [G1 [e1 | []]] eqn:E1;
        destruct (aggregate filters s (length h) (length (h ++ [up.1])) F2)
          as [G2 [e2 | []]] eqn:E2
    end; unfold memory in Hmem; cbn [fst snd] in Hmem, HI1;
      apply pair_equal_spec in Hmem as [[Hst' Hv']%pair_equal_spec Hres];
      try done.
    + unfold memory. cbn [fst snd]. by rewrite Hst', Hv', Hres.
    + cbn [I1] in HI1. fold img'. rewrite <- HI1. by apply IH.
Qed.

(** The running sum after the loop, in terms of the responses the loop
    computed. *)
Lemma for_each_running_sum n fr :
  (1 <= n)%Z -> Forall (fits rows cols) (py_range 0 n) ->
  exists fr' sum,
    for_each (py_range 0 n) pass fr = (fr', inr tt)
    /\ value_of psi_sum fr' = Some sum
    /\ data sum = running_sum (outputs (py_range 0 n) (I1 fr)).
Proof.
  intros Hn Hfit.
  pose proof (for_each_memory (py_range 0 n) fr fr Hfit eq_refl eq_refl) as Hmem.
  rewrite py_range_cons in Hmem |- * by lia.
  cbn [outputs scale_outputs] in Hmem |- *.
  match type of Hmem with
  | _ = memory (aggregate_all _ ((_, ?r0, ?a0) :: ?rest) _) =>
      destruct (aggregate_all_sum filters r0 a0 rest fr)
        as (fr2 & sum & E2 & Hval & Hdata)
  end.
  { clear. generalize (downscaled resample rows cols 0 (I1 fr)).
    assert (Forall (fun s => (0 < s)%Z) (py_range (0 + 1) n)) as Hpos.
    { apply Forall_forall. intros s Hs%py_range_lower. lia. }
    induction Hpos as [| s scales Hs _ IH]; intros img; cbn; constructor; auto. }
  rewrite E2 in Hmem.
  destruct (for_each _ pass fr) as [fr1 res1].
  unfold memory in Hmem. cbn [fst snd] in Hmem.
  apply pair_equal_spec in Hmem as [[Hst Hv]%pair_equal_spec ->].
  exists fr1, sum. split; [done |]. split; [| exact Hdata].
  unfold value_of in *. by rewrite Hst, Hv.
Qed.

End LoopOutputs.

(** With two scales or more, the running sum at a pixel after the loop
    exceeds the sum of the responses by what the response of scale 1
    exceeds the response of scale 0 by. *)
Lemma for_each_running_sum_pixel cv2_sepFilter2D fftconvolve resample
    filters rows cols n fr p0 p1 rest (i : nat) (x0 x1 : R) :
  (1 <= n)%Z -> Forall (fits rows cols) (py_range 0 n) ->
  scale_outputs cv2_sepFilter2D fftconvolve resample filters rows cols
    (py_range 0 n) (I1 fr) = p0 :: p1 :: rest ->
  response_of p0 !! i = Some x0 -> response_of p1 !! i = Some x1 ->
  Forall (fun p => is_Some (response_of p !! i)) rest ->
  exists fr' sum,
    for_each (py_range 0 n)
      (scale_pass cv2_sepFilter2D fftconvolve resample filters rows cols) fr
    = (fr', inr tt)
    /\ value_of psi_sum fr' = Some sum
    /\ data sum !! i
       = Some (sum_of_responses (p0 :: p1 :: rest) i + (Rmax x0 x1 - x0)).
Proof.
  intros Hn Hfit Hout H0 H1 Hall.
  destruct (for_each_running_sum cv2_sepFilter2D fftconvolve resample
              filters rows cols n fr Hn Hfit) as (fr' & sum & E & Hval & Hdata).
  exists fr', sum. split; [done |]. split; [done |].
  rewrite Hdata, Hout. by apply running_sum_lookup.
Qed.

(** C1 fails on the code.  At scale 0 the names [psi_max] and [psi_sum]
    are bound to one array; at scale 1 the in-place update of [psi_max]
    is seen through [psi_sum] before the response is added.  With the
    responses 0 at scale 0 and 1 at scale 1 at some pixel, the running sum
    ends at 2 where the sum of the responses is 1. *)
Theorem C1_running_sum_counts_overtaking_scale_twice :
  exists fr sum,
    aggregate_all (Backend.one_tap 1.5 2)
      [(0%Z, Backend.pixel 0, Backend.pixel 0);
       (1%Z, Backend.pixel 1, Backend.pixel 0)]
      (enter (Backend.pixel 0)) = (fr, inr tt)
    /\ value_of psi_sum fr = Some sum
    /\ data sum !! 0%nat = Some 2
    /\ sum_of_responses
         [(0%Z, Backend.pixel 0, Backend.pixel 0);
          (1%Z, Backend.pixel 1, Backend.pixel 0)]
         0 = 1.
Proof.
  do 2 eexists. split; [| split; [| split]].
  - cbn. unfold aggregate. cbn.
    unfold agt. cbn. rewrite (Rgtb_true 1 0) by lra. cbn. reflexivity.
  - reflexivity.
  - cbn. f_equal; lra.
  - unfold sum_of_responses. cbn. lra.
Qed.

(** ** The loop as a fold of its outputs *)

Lemma lookup_snoc_eq (L : list ndarray) (x : ndarray) :
  (L ++ [x]) !! length L = Some x.
Proof. by apply list_lookup_middle. Qed.

(** Lookups in a store built by allocation and update. *)
Ltac look :=
  repeat first
    [ rewrite lookup_snoc_eq
    | rewrite lookup_app_l by lens
    | rewrite list_lookup_insert_eq by lens
    | rewrite list_lookup_insert_ne by lens ].

Lemma holds_first filters r a fr :
  exists fr',
    aggregate_all filters [(0%Z, r, a)] fr = (fr', inr tt)
    /\ holds fr' (first_totals filters (0%Z, r, a))
    /\ I1 fr' = I1 fr /\ stdout fr' = stdout fr.
Proof.
  destruct fr as [img h v out].
  cbn [aggregate_all]. unfold aggregate. cbn.
  look. cbn [from_option Datatypes.id].
  eexists. split; [reflexivity |]. split; [| done].
  eapply Holds; [unfold bound_to; cbn; reflexivity | cbn [store t_max t_sum t_orient t_width t_psi first_totals fst snd] ..];
    try (look; reflexivity); try lens.
Qed.

Lemma holds_next filters s r a fr t :
  s <> 0%Z -> holds fr t ->
  exists fr',
    aggregate_all filters [(s, r, a)] fr = (fr', inr tt)
    /\ holds fr' (next_totals filters t (s, r, a))
    /\ I1 fr' = I1 fr /\ stdout fr' = stdout fr.
Proof.
  destruct fr as [img h v out].
  intros Hs [lmax lsum lo lw lp Hv Hmax Ho Hw Hp Hsum Hom Hos Hwm Hwo Hpm Hpo Hpw].
  cbn [store vars] in *. subst v.
  pose proof (lookup_lt_Some _ _ _ Hmax) as Lmax.
  pose proof (lookup_lt_Some _ _ _ Ho) as Lo.
  pose proof (lookup_lt_Some _ _ _ Hw) as Lw.
  pose proof (lookup_lt_Some _ _ _ Hp) as Lp.
  assert (lsum < length h)%nat as Lsum.
  { destruct (t_sum t); [destruct Hsum as [_ Hsum]; by eapply lookup_lt_Some | by subst]. }
  cbn [aggregate_all]. unfold aggregate.
  assert ((s =? 0)%Z = false) as -> by lia.
  cbn. look. rewrite ?Hmax, ?Ho, ?Hw, ?Hp. cbn [from_option Datatypes.id].
  eexists. split; [reflexivity |]. split; [| done].
  destruct (t_sum t) as [sum |] eqn:Esum.
  - destruct Hsum as [Hsm Hsum].
    eapply Holds; [unfold bound_to; cbn; reflexivity | cbn [store t_max t_sum t_orient t_width t_psi next_totals fst snd] ..];
      rewrite ?Esum; try lens.
    + look. reflexivity.
    + look. reflexivity.
    + look. rewrite ?Hw. reflexivity.
    + look. rewrite ?Hp. reflexivity.
    + split; [lens |]. look. rewrite ?Hsum. reflexivity.
  - subst lsum.
    eapply Holds; [unfold bound_to; cbn; reflexivity | cbn [store t_max t_sum t_orient t_width t_psi next_totals fst snd] ..];
      rewrite ?Esum; try lens.
    + look. reflexivity.
    + look. reflexivity.
    + look. rewrite ?Hw. reflexivity.
    + look. rewrite ?Hp. reflexivity.
    + split; [lens |]. look. reflexivity.
Qed.

Lemma aggregate_all_cons filters p rest fr :
  aggregate_all filters (p :: rest) fr
  = bindM (aggregate_all filters [p]) (fun _ => aggregate_all filters rest) fr.
Proof.
  destruct p as [[s r] a]. cbn [aggregate_all]. unfold bindM.
  cbn [alloc]. by destruct (aggregate _ _ _ _ _) as [fr' [e | []]].
Qed.

(** Every later scale turns the aggregates held into the next ones. *)
Lemma holds_later filters rest : forall fr t,
  Forall (fun p => (0 < p.1.1)%Z) rest -> holds fr t ->
  exists fr',
    aggregate_all filters rest fr = (fr', inr tt)
    /\ holds fr' (foldl (next_totals filters) t rest)
    /\ I1 fr' = I1 fr /\ stdout fr' = stdout fr.
Proof.
  induction rest as [| [[s r] a] rest IH]; intros fr t Hpos Hfr.
  - exists fr. by cbn.
  - apply Forall_cons in Hpos as [Hs Hpos]. cbn [fst] in Hs.
    destruct (holds_next filters s r a fr t) as (fr1 & E1 & H1 & HI1 & Hout1);
      [lia | done |].
    destruct (IH fr1 _ Hpos H1) as (fr2 & E2 & H2 & HI2 & Hout2).
    exists fr2. rewrite aggregate_all_cons, (bindM_inr _ _ _ _ _ E1), E2.
    cbn [foldl]. split; [done |]. split; [done |]. split; congruence.
Qed.

(** The aggregation of scale 0 followed by positive scales leaves the
    fold of the scales in memory. *)
Lemma holds_all filters r0 a0 rest fr :
  Forall (fun p => (0 < p.1.1)%Z) rest ->
  exists fr',
    aggregate_all filters ((0%Z, r0, a0) :: rest) fr = (fr', inr tt)
    /\ holds fr' (totals_from filters (0%Z, r0, a0) rest).
Proof.
  intros Hpos.
  destruct (holds_first filters r0 a0 fr) as (fr1 & E1 & H1 & _).
  destruct (holds_later filters rest fr1 _ Hpos H1) as (fr2 & E2 & H2 & _).
  exists fr2. rewrite aggregate_all_cons, (bindM_inr _ _ _ _ _ E1), E2. done.
Qed.

(** The final step returns [finish] of the aggregates held. *)
Lemma finalize_holds fr t :
  holds fr t ->
  exists fr', finalize fr = (fr', inr (finish t)) /\ stdout fr' = stdout fr.
Proof.
  destruct fr as [img h v out].
  intros [lmax lsum lo lw lp Hv Hmax Ho Hw Hp Hsum Hom Hos Hwm Hwo Hpm Hpo Hpw].
  cbn [store vars] in *. subst v.
  pose proof (lookup_lt_Some _ _ _ Hmax) as Lmax.
  pose proof (lookup_lt_Some _ _ _ Ho) as Lo.
  pose proof (lookup_lt_Some _ _ _ Hw) as Lw.
  pose proof (lookup_lt_Some _ _ _ Hp) as Lp.
  assert (h !! lsum = Some (sum_array t)) as Hs.
  { unfold sum_array. destruct (t_sum t); [by destruct Hsum | by subst]. }
  unfold finalize. cbn.
  do 3 (look; rewrite ?Hw, ?Hs, ?Hp, ?Ho; cbn [from_option Datatypes.id]).
  eexists. split; [reflexivity | done].
Qed.

Lemma holds_memory fr1 fr2 t :
  store fr1 = store fr2 -> vars fr1 = vars fr2 -> holds fr1 t -> holds fr2 t.
Proof.
  intros Hst Hv [lmax lsum lo lw lp]. rewrite Hst, Hv in *.
  intros. by eapply Holds.
Qed.

Lemma scale_outputs_positive cv2_sepFilter2D fftconvolve resample filters
    rows cols scales : forall img,
  Forall (fun s => (0 < s)%Z) scales ->
  Forall (fun p => (0 < p.1.1)%Z)
    (scale_outputs cv2_sepFilter2D fftconvolve resample filters rows cols
       scales img).
Proof.
  induction scales as [| s scales IH]; intros img Hpos; cbn; [constructor |].
  apply Forall_cons in Hpos as [Hs Hpos]. constructor; [done | by apply IH].
Qed.

Lemma py_range_positive a b : (0 < a)%Z -> Forall (fun s => (0 < s)%Z) (py_range a b).
Proof. intros Ha. apply Forall_forall. intros s Hs%py_range_lower. lia. Qed.

Section Fold.

Variable cv2_sepFilter2D : ndarray -> ndarray -> ndarray -> ndarray.
Variable fftconvolve : ndarray -> ndarray -> ndarray.
Variable resample : ndarray -> Z * Z -> interpolation -> ndarray.

Let outputs := scale_outputs cv2_sepFilter2D fftconvolve resample.
Let up := upsampled_response cv2_sepFilter2D fftconvolve resample.

Lemma outputs_range filters rows cols n img :
  (1 <= n)%Z ->
  outputs filters rows cols (py_range 0 n) img
  = scale_0 cv2_sepFilter2D fftconvolve filters img
    :: outputs filters rows cols (py_range 1 n) img.
Proof.
  intros Hn. rewrite py_range_cons by lia. cbn [outputs scale_outputs].
  unfold downscaled, upsampled_response, scale_0. cbn.
  by destruct (scale_response cv2_sepFilter2D fftconvolve filters img).
Qed.

(** The loop leaves the fold of its outputs in memory and prints one line
    for each scale. *)
Lemma for_each_holds filters rows cols n fr :
  (1 <= n)%Z -> Forall (fits rows cols) (py_range 0 n) ->
  exists fr',
    for_each (py_range 0 n)
      (scale_pass cv2_sepFilter2D fftconvolve resample filters rows cols) fr
    = (fr', inr tt)
    /\ holds fr' (totals_from filters
                    (scale_0 cv2_sepFilter2D fftconvolve filters (I1 fr))
                    (outputs filters rows cols (py_range 1 n) (I1 fr)))
    /\ stdout fr' = stdout fr ++ (scale_line <$> py_range 0 n).
Proof.
  intros Hn Hfit.
  pose (T := fun _ : R => True).
  assert (forall a, all T a) as HT by (intros a; by apply Forall_true).
  destruct (for_each_scale cv2_sepFilter2D fftconvolve resample filters
              rows cols T T T) with (n := n) (fr := fr)
    as (fr1 & E1 & _ & Hout1); try done.
  { apply Forall_forall. intros; apply HT. }
  pose proof (for_each_memory cv2_sepFilter2D fftconvolve resample filters
                rows cols (py_range 0 n) fr fr Hfit eq_refl eq_refl) as Hmem.
  fold outputs in Hmem. rewrite outputs_range in Hmem by done.
  destruct (holds_all filters
              (scale_response cv2_sepFilter2D fftconvolve filters (I1 fr)).1
              (scale_response cv2_sepFilter2D fftconvolve filters (I1 fr)).2
              (outputs filters rows cols (py_range 1 n) (I1 fr)) fr)
    as (fr2 & E2 & H2).
  { apply scale_outputs_positive, py_range_positive. lia. }
  unfold scale_0 in Hmem. rewrite E1, E2 in Hmem.
  unfold memory in Hmem. cbn [fst snd] in Hmem.
  apply pair_equal_spec in Hmem as [[Hst Hv]%pair_equal_spec _].
  exists fr1. split; [done |]. split; [| done].
  by apply (holds_memory fr2 fr1).
Qed.

End Fold.

Lemma holds_psi_sum fr t : holds fr t -> value_of psi_sum fr = Some (sum_array t).
Proof.
  intros [lmax lsum lo lw lp Hv Hmax Ho Hw Hp Hsum _ _ _ _ _ _ _].
  unfold value_of, sum_array. rewrite Hv. cbn.
  destruct (t_sum t); [by destruct Hsum | by subst].
Qed.

Section CallFold.

Variable cv2_sepFilter2D : ndarray -> ndarray -> ndarray -> ndarray.
Variable fftconvolve : ndarray -> ndarray -> ndarray.
Variable resample : ndarray -> Z * Z -> interpolation -> ndarray.

(** A call on a two-dimensional image with at least one scale, every
    scale of which fits: the loop leaves the fold of its outputs in
    memory, and the call returns [finish] of it. *)
Lemma call_fold img filters rows cols :
  shape img = [rows; cols] -> (1 <= nrScales filters)%Z ->
  Forall (fits rows cols) (py_range 0 (nrScales filters)) ->
  exists fr,
    for_each (py_range 0 (nrScales filters))
      (scale_pass cv2_sepFilter2D fftconvolve resample filters rows cols)
      (enter (normalize img)) = (fr, inr tt)
    /\ holds fr
         (totals_from filters
            (scale_0 cv2_sepFilter2D fftconvolve filters (normalize img))
            (scale_outputs cv2_sepFilter2D fftconvolve resample filters
               rows cols (py_range 1 (nrScales filters)) (normalize img)))
    /\ applyMMSI cv2_sepFilter2D fftconvolve resample img filters
       = (scale_line <$> py_range 0 (nrScales filters),
          inr (finish
                 (totals_from filters
                    (scale_0 cv2_sepFilter2D fftconvolve filters
                       (normalize img))
                    (scale_outputs cv2_sepFilter2D fftconvolve resample
                       filters rows cols (py_range 1 (nrScales filters))
                       (normalize img))))).
Proof.
  intros Hsh Hn Hfit.
  destruct (for_each_holds cv2_sepFilter2D fftconvolve resample filters
              rows cols (nrScales filters) (enter (normalize img)) Hn Hfit)
    as (fr1 & E1 & H1 & Hout1).
  destruct (finalize_holds fr1 _ H1) as (fr2 & E2 & Hout2).
  exists fr1. split; [exact E1 |]. split; [exact H1 |].
  unfold applyMMSI.
  rewrite (body_two_dimensions _ _ _ img filters rows cols Hsh).
  unfold scales_then_finalize.
  rewrite (bindM_inr _ _ _ _ _ E1), E2. by rewrite Hout2, Hout1.
Qed.

End CallFold.

(** ** The aggregates, pixel by pixel *)

Section Pixels.

Variable filters : SingularityIndexFilters.
Variable i : nat.

Lemma t_psi_lookup rest : forall (t : totals) (x : R),
  data (t_psi t) !! i = Some x -> covers i rest ->
  data (t_psi (foldl (next_totals filters) t rest)) !! i
  = Some (x + sum_of_squares rest i).
Proof.
  induction rest as [| p rest IH]; intros t x Hx Hall.
  - cbn. rewrite Hx. f_equal. unfold sum_of_squares. cbn. lra.
  - apply Forall_cons in Hall as [[[y Hy] _] Hall].
    cbn [foldl]. rewrite (IH _ (x + y ^ 2)); [| | done].
    + unfold sum_of_squares. cbn [fmap list_fmap foldr]. rewrite Hy.
      cbn [from_option Datatypes.id]. f_equal. lra.
    + unfold next_totals. cbn [t_psi aadd azip asquare amap data farray].
      unfold response_of in Hy.
      by rewrite lookup_zip_with, Hx, list_lookup_fmap, Hy.
Qed.

Lemma t_width_lookup rest : forall (t : totals) (x : R),
  data (t_width t) !! i = Some x -> covers i rest ->
  data (t_width (foldl (next_totals filters) t rest)) !! i
  = Some (x + weighted_sum filters rest i).
Proof.
  induction rest as [| p rest IH]; intros t x Hx Hall.
  - cbn. rewrite Hx. f_equal. unfold weighted_sum. cbn. lra.
  - apply Forall_cons in Hall as [[[y Hy] _] Hall].
    cbn [foldl].
    rewrite (IH _ (x + minScale filters * sqrt2_pow p.1.1 * y)); [| | done].
    + unfold weighted_sum. cbn [fmap list_fmap foldr]. rewrite Hy.
      cbn [from_option Datatypes.id]. f_equal. lra.
    + unfold next_totals. cbn [t_width aadd azip ascale amap data farray].
      unfold response_of in Hy.
      by rewrite lookup_zip_with, Hx, list_lookup_fmap, Hy.
Qed.

Lemma t_max_orient_lookup rest : forall (t : totals) (m o : R),
  data (t_max t) !! i = Some m -> data (t_orient t) !! i = Some o ->
  covers i rest ->
  data (t_max (foldl (next_totals filters) t rest)) !! i
  = Some (foldl winner (m, o) (pixel_of i <$> rest)).1
  /\ data (t_orient (foldl (next_totals filters) t rest)) !! i
     = Some (foldl winner (m, o) (pixel_of i <$> rest)).2.
Proof.
  induction rest as [| p rest IH]; intros t m o Hm Ho Hall.
  - by cbn.
  - apply Forall_cons in Hall as [[[x Hx] [y Hy]] Hall].
    cbn [foldl fmap list_fmap].
    unfold response_of, angles_of in Hx, Hy.
    assert (agt p.1.2 (t_max t) !! i = Some (Rgtb x m)) as Hidx.
    { unfold agt. by rewrite lookup_zip_with, Hx, Hm. }
    rewrite (surjective_pairing (winner (m, o) (pixel_of i p))).
    apply IH; [| | done].
    + unfold next_totals. cbn [t_max setitem_mask getitem_mask data farray].
      rewrite (place_compress_lookup _ _ _ i (Rgtb x m) m x Hidx Hm Hx).
      unfold winner, pixel_of, response_of, angles_of. rewrite Hx, Hy. cbn.
      by destruct (Rgtb x m).
    + unfold next_totals. cbn [t_orient setitem_mask getitem_mask data farray].
      rewrite (place_compress_lookup _ _ _ i (Rgtb x m) o y Hidx Ho Hy).
      unfold winner, pixel_of, response_of, angles_of. rewrite Hx, Hy. cbn.
      by destruct (Rgtb x m).
Qed.

End Pixels.

(** The pair winner-take-all ends with is the pair of the first scale
    that attains the greatest response. *)
Lemma winner_first_maximum l : forall best,
  exists k,
    (best :: l) !! k = Some (foldl winner best l)
    /\ (forall j xy, (best :: l) !! j = Some xy -> xy.1 <= (foldl winner best l).1)
    /\ (forall j xy, (j < k)%nat -> (best :: l) !! j = Some xy ->
                     xy.1 < (foldl winner best l).1).
Proof.
  induction l as [| xy l IH]; intros best.
  - exists 0%nat. cbn. split; [done |]. split.
    + intros [| j] p Hp; [injection Hp as <-; lra | done].
    + intros j p Hj. lia.
  - cbn [foldl]. destruct (IH (winner best xy)) as (k & Hk & Hle & Hlt).
    unfold winner in *. destruct (Rgtb xy.1 best.1) eqn:E.
    + apply Rgtb_spec in E.
      exists (S k). split; [exact Hk |]. split.
      * intros [| [| j]] p Hp.
        -- injection Hp as <-. specialize (Hle 0%nat xy eq_refl). lra.
        -- injection Hp as <-. exact (Hle 0%nat xy eq_refl).
        -- exact (Hle (S j) p Hp).
      * intros [| [| j]] p Hj Hp.
        -- injection Hp as <-. specialize (Hle 0%nat xy eq_refl). lra.
        -- injection Hp as <-. apply (Hlt 0%nat xy); [lia | done].
        -- apply (Hlt (S j) p); [lia | done].
    + assert (xy.1 <= best.1) as Hxy.
      { unfold Rgtb in E. destruct (Rlt_dec best.1 xy.1); [done | lra]. }
      destruct k as [| k].
      * exists 0%nat. split; [exact Hk |]. split.
        -- intros [| [| j]] p Hp.
           ++ injection Hp as <-. exact (Hle 0%nat best eq_refl).
           ++ injection Hp as <-. specialize (Hle 0%nat best eq_refl). lra.
           ++ exact (Hle (S j) p Hp).
        -- intros j p Hj. lia.
      * exists (S (S k)). split; [exact Hk |]. split.
        -- intros [| [| j]] p Hp.
           ++ injection Hp as <-. exact (Hle 0%nat best eq_refl).
           ++ injection Hp as <-. specialize (Hle 0%nat best eq_refl). lra.
           ++ exact (Hle (S j) p Hp).
        -- intros [| [| j]] p Hj Hp.
           ++ injection Hp as <-. apply (Hlt 0%nat best); [lia | done].
           ++ injection Hp as <-.
              specialize (Hlt 0%nat best ltac:(lia) eq_refl). lra.
           ++ apply (Hlt (S j) p); [lia | done].
Qed.

(** The array read through [psi_sum] holds the running sum. *)
Lemma sum_array_running_sum filters p0 rest :
  data (sum_array (totals_from filters p0 rest)) = running_sum (p0 :: rest).
Proof.
  unfold totals_from, running_sum.
  destruct rest as [| p1 rest]; [done |].
  cbn [foldl].
  assert (forall l t sum,
            t_sum t = Some sum ->
            data (sum_array (foldl (next_totals filters) t l))
            = foldl add_response (data sum) l) as Hlater.
  { induction l as [| p l IH]; intros t sum Ht.
    - cbn [foldl]. unfold sum_array. by rewrite Ht.
    - cbn [foldl].
      rewrite (IH (next_totals filters t p) _ eq_refl).
      rewrite Ht. reflexivity. }
  rewrite (Hlater rest (next_totals filters (first_totals filters p0) p1) _
             eq_refl).
  reflexivity.
Qed.

(** Where every scale has a response, the running sum has a value. *)
Lemma running_sum_covered p0 rest (i : nat) :
  covers i (p0 :: rest) -> is_Some (running_sum (p0 :: rest) !! i).
Proof.
  intros Hall. apply Forall_cons in Hall as [[[x0 H0] _] Hall].
  destruct rest as [| p1 rest]; [by exists x0 |].
  apply Forall_cons in Hall as [[[x1 H1] _] Hall].
  rewrite (running_sum_lookup p0 p1 rest i x0 x1 H0 H1); [by eexists |].
  eapply Forall_impl; [exact Hall |]. by intros p [Hp _].
Qed.


(** ** The sizes of the maps *)

Lemma sized_amap rows cols f a : sized rows cols a -> sized rows cols (amap f a).
Proof. intros [Hs Hl]. split; [done |]. cbn. by rewrite length_fmap. Qed.

Lemma sized_azip rows cols f a b :
  sized rows cols a -> sized rows cols b -> sized rows cols (azip f a b).
Proof.
  intros [Hs Hl] [_ Hl']. split; [done |].
  cbn. rewrite length_zip_with. lia.
Qed.

Lemma place_scalar_length m c d : length (place_scalar m c d) = length d.
Proof.
  revert d. induction m as [| b m IH]; intros [| x d]; cbn; try done.
  by rewrite IH.
Qed.

Lemma sized_setitem_mask_scalar rows cols a m c :
  sized rows cols a -> sized rows cols (setitem_mask_scalar a m c).
Proof. intros [Hs Hl]. split; [done |]. cbn. by rewrite place_scalar_length. Qed.

Lemma sized_setitem_mask rows cols a m vals :
  sized rows cols a -> sized rows cols (setitem_mask a m vals).
Proof. intros [Hs Hl]. split; [done |]. cbn. by rewrite place_length. Qed.

Lemma sized_lookup rows cols a (i : nat) :
  sized rows cols a -> (i < Z.to_nat (rows * cols))%nat -> is_Some (data a !! i).
Proof. intros [_ Hl] Hi. apply lookup_lt_is_Some. lia. Qed.

Section Sizes.

Variable cv2_sepFilter2D : ndarray -> ndarray -> ndarray -> ndarray.
Variable fftconvolve : ndarray -> ndarray -> ndarray.
Variable resample : ndarray -> Z * Z -> interpolation -> ndarray.

(** The filters return an array of the size of their input, and resizing
    an array that has pixels to a size that has pixels gives that size. *)
Hypothesis sepFilter2D_sized : forall rows cols src kernelX kernelY,
  sized rows cols src -> sized rows cols (cv2_sepFilter2D src kernelX kernelY).
Hypothesis fftconvolve_sized : forall rows cols in1 in2,
  sized rows cols in1 -> sized rows cols (fftconvolve in1 in2).
Hypothesis resize_sized : forall rows cols src width height interp,
  sized rows cols src -> (1 <= rows)%Z -> (1 <= cols)%Z ->
  (1 <= width)%Z -> (1 <= height)%Z ->
  sized height width (resample src (width, height) interp).

Let call := applyMMSI cv2_sepFilter2D fftconvolve resample.
Let outputs := scale_outputs cv2_sepFilter2D fftconvolve resample.

Ltac sizes :=
  repeat first
    [ assumption
    | apply sized_setitem_mask_scalar
    | apply sized_setitem_mask
    | apply sized_azip
    | apply sized_amap
    | apply sepFilter2D_sized
    | apply fftconvolve_sized ].

Lemma scale_response_sized filters rows cols img :
  sized rows cols img ->
  sized rows cols (scale_response cv2_sepFilter2D fftconvolve filters img).1
  /\ sized rows cols (scale_response cv2_sepFilter2D fftconvolve filters img).2.
Proof.
  intros Himg. unfold scale_response, orientation, steer_second.
  cbn [fst snd]. split; sizes.
Qed.

Lemma outputs_sized filters rows cols scales : forall img r c,
  sized r c img -> (1 <= r)%Z -> (1 <= c)%Z ->
  Forall (fun s => (0 < s)%Z /\ sqrt2_pow s <= IZR rows
                   /\ sqrt2_pow s <= IZR cols) scales ->
  (1 <= rows)%Z -> (1 <= cols)%Z ->
  Forall (fun p => sized rows cols p.1.2 /\ sized rows cols p.2)
    (outputs filters rows cols scales img).
Proof.
  induction scales as [| s scales IH]; intros img r c Himg Hr Hc Hs Hrows Hcols;
    [constructor |].
  apply Forall_cons in Hs as [(Hpos & Hsr & Hsc) Hs].
  unfold outputs. cbn [scale_outputs]. fold outputs.
  unfold downscaled, upsampled_response.
  assert ((0 <? s)%Z = true) as -> by lia.
  pose proof (side_positive rows s Hsr) as Hh.
  pose proof (side_positive cols s Hsc) as Hw.
  unfold scaled_size.
  pose proof (resize_sized r c img (py_int (IZR cols / sqrt2_pow s))
                (py_int (IZR rows / sqrt2_pow s)) INTER_CUBIC Himg Hr Hc
                ltac:(lia) ltac:(lia)) as Hdown.
  destruct (scale_response_sized filters _ _ _ Hdown) as [Hresp Hang].
  destruct (scale_response cv2_sepFilter2D fftconvolve filters _)
    as [psi_scale angles] eqn:E.
  cbn [fst snd] in *.
  constructor.
  - cbn [fst snd]. split.
    + apply (resize_sized _ _ psi_scale cols rows INTER_CUBIC Hresp); lia.
    + apply (resize_sized _ _ angles cols rows INTER_NEAREST Hang); lia.
  - apply (IH _ _ _ Hdown); try done; lia.
Qed.

Lemma totals_sized filters rows cols rest : forall t,
  sized rows cols (t_max t) -> sized rows cols (sum_array t) ->
  sized rows cols (t_orient t) -> sized rows cols (t_width t) ->
  sized rows cols (t_psi t) ->
  Forall (fun p => sized rows cols p.1.2 /\ sized rows cols p.2) rest ->
  sized rows cols (sum_array (foldl (next_totals filters) t rest))
  /\ sized rows cols (t_orient (foldl (next_totals filters) t rest))
  /\ sized rows cols (t_width (foldl (next_totals filters) t rest))
  /\ sized rows cols (t_psi (foldl (next_totals filters) t rest)).
Proof.
  induction rest as [| p rest IH]; intros t Hm Hs Ho Hw Hp Hall; [done |].
  apply Forall_cons in Hall as [[Hr Ha] Hall].
  cbn [foldl]. apply IH; try done; unfold sum_array in *;
    cbn [next_totals t_max t_sum t_orient t_width t_psi default from_option
         Datatypes.id].
  - sizes.
  - destruct (t_sum t); cbn [default from_option Datatypes.id] in *;
      apply sized_azip; sizes.
  - sizes.
  - apply sized_azip; sizes.
  - apply sized_azip; sizes.
Qed.

Lemma scales_fit rows cols n :
  sqrt2_pow (n - 1) <= IZR rows -> sqrt2_pow (n - 1) <= IZR cols ->
  Forall (fun s => (0 < s)%Z /\ sqrt2_pow s <= IZR rows
                   /\ sqrt2_pow s <= IZR cols) (py_range 1 n).
Proof.
  intros Hr Hc. apply Forall_forall. intros s Hs.
  assert (1 <= s < n)%Z as Hsn.
  { unfold py_range in Hs.
    apply list_elem_of_fmap in Hs as (k & -> & Hk%elem_of_seq). lia. }
  pose proof (sqrt2_pow_increasing s (n - 1) ltac:(lia)).
  split; [lia |]. split; lra.
Qed.

Lemma all_outputs_sized filters rows cols img :
  sized rows cols img -> (1 <= rows)%Z -> (1 <= cols)%Z ->
  (1 <= nrScales filters)%Z ->
  sqrt2_pow (nrScales filters - 1) <= IZR rows ->
  sqrt2_pow (nrScales filters - 1) <= IZR cols ->
  Forall (fun p => sized rows cols p.1.2 /\ sized rows cols p.2)
    (outputs filters rows cols (py_range 0 (nrScales filters)) img).
Proof.
  intros Himg Hrows Hcols Hn Hr Hc. unfold outputs.
  rewrite (outputs_range _ _ _ filters rows cols _ _ Hn).
  constructor.
  - unfold scale_0. cbn [fst snd]. by apply scale_response_sized.
  - eapply outputs_sized; try done. by apply scales_fit.
Qed.

(** At every pixel of the image, every scale has a response and an
    orientation. *)
Lemma all_outputs_cover filters rows cols img (i : nat) :
  sized rows cols img -> (1 <= rows)%Z -> (1 <= cols)%Z ->
  (1 <= nrScales filters)%Z ->
  sqrt2_pow (nrScales filters - 1) <= IZR rows ->
  sqrt2_pow (nrScales filters - 1) <= IZR cols ->
  (i < Z.to_nat (rows * cols))%nat ->
  covers i (outputs filters rows cols (py_range 0 (nrScales filters)) img).
Proof.
  intros Himg Hrows Hcols Hn Hr Hc Hi.
  eapply Forall_impl; [by apply all_outputs_sized |].
  intros p [Hresp Hang]. split; by eapply sized_lookup.
Qed.

Lemma sized_normalize rows cols img :
  sized rows cols img -> sized rows cols (normalize img).
Proof.
  intros [Hs Hl]. split; [by rewrite shape_normalize |].
  unfold normalize, rescale_uint16, rescale_uint8.
  destruct (dtype img) eqn:Hd; cbn; rewrite ?Hd; cbn; by rewrite ?length_fmap.
Qed.

(** Where every scale keeps a pixel, the loop ends with aggregates of
    the size of the image, and the call returns maps of that size. *)
Lemma call_sized img filters rows cols :
  sized rows cols img -> (1 <= nrScales filters)%Z ->
  sqrt2_pow (nrScales filters - 1) <= IZR rows ->
  sqrt2_pow (nrScales filters - 1) <= IZR cols ->
  exists fr sum psi_out width_out orient_out,
    for_each (py_range 0 (nrScales filters))
      (scale_pass cv2_sepFilter2D fftconvolve resample filters rows cols)
      (enter (normalize img)) = (fr, inr tt)
    /\ value_of psi_sum fr = Some sum /\ sized rows cols sum
    /\ call img filters
       = (scale_line <$> py_range 0 (nrScales filters),
          inr (psi_out, width_out, orient_out))
    /\ sized rows cols psi_out /\ sized rows cols width_out
    /\ sized rows cols orient_out.
Proof.
  intros Himg Hn Hr Hc.
  pose proof (sqrt2_pow_increasing 0 (nrScales filters - 1) ltac:(lia)) as H0.
  change (sqrt2_pow 0) with 1 in H0.
  assert (1 <= rows)%Z as Hrows.
  { assert (0 < rows)%Z; [apply lt_IZR; lra | lia]. }
  assert (1 <= cols)%Z as Hcols.
  { assert (0 < cols)%Z; [apply lt_IZR; lra | lia]. }
  pose proof (all_outputs_sized filters rows cols (normalize img)
                (sized_normalize _ _ _ Himg) Hrows Hcols Hn Hr Hc) as Hall.
  destruct (call_fold cv2_sepFilter2D fftconvolve resample img filters
              rows cols (proj1 Himg) Hn (fits_range _ _ _ Hr Hc))
    as (fr & Eloop & Hholds & Hcall).
  unfold outputs in Hall.
  rewrite (outputs_range _ _ _ filters rows cols _ _ Hn) in Hall.
  apply Forall_cons in Hall as [[Hr0 Ha0] Hall].
  unfold scale_0 in Hr0, Ha0. cbn [fst snd] in Hr0, Ha0.
  assert (sized rows cols (sum_array (totals_from filters
            (scale_0 cv2_sepFilter2D fftconvolve filters (normalize img))
            (outputs filters rows cols (py_range 1 (nrScales filters))
               (normalize img))))
          /\ sized rows cols (t_orient (totals_from filters
               (scale_0 cv2_sepFilter2D fftconvolve filters (normalize img))
               (outputs filters rows cols (py_range 1 (nrScales filters))
                  (normalize img))))
          /\ sized rows cols (t_width (totals_from filters
               (scale_0 cv2_sepFilter2D fftconvolve filters (normalize img))
               (outputs filters rows cols (py_range 1 (nrScales filters))
                  (normalize img))))
          /\ sized rows cols (t_psi (totals_from filters
               (scale_0 cv2_sepFilter2D fftconvolve filters (normalize img))
               (outputs filters rows cols (py_range 1 (nrScales filters))
                  (normalize img)))))
    as (Hsum & Horient & Hwidth & Hpsi).
  { apply totals_sized; [.. | exact Hall];
      unfold sum_array, scale_0;
      cbn [first_totals t_max t_sum t_orient t_width t_psi default
           from_option Datatypes.id fst snd]; sizes. }
  unfold finish in Hcall. do 5 eexists.
  split; [exact Eloop |]. split; [by apply holds_psi_sum |].
  split; [exact Hsum |]. split; [exact Hcall |].
  fold outputs. split; [| split]; sizes.
Qed.

End Sizes.

(** ** When the loop stops *)

Lemma py_range_app a k b :
  (a <= k <= b)%Z -> py_range a b = py_range a k ++ py_range k b.
Proof.
  intros Hk. unfold py_range.
  replace (Z.to_nat (b - a)) with (Z.to_nat (k - a) + Z.to_nat (b - k))%nat by lia.
  rewrite seq_app, fmap_app. f_equal. cbn [Nat.add].
  replace (seq (Z.to_nat (k - a)) (Z.to_nat (b - k)))
    with (Nat.add (Z.to_nat (k - a)) <$> seq 0 (Z.to_nat (b - k)))
    by (rewrite fmap_add_seq; f_equal; lia).
  rewrite <- list_fmap_compose.
  apply list_fmap_ext. intros _ i _. cbn. lia.
Qed.

Lemma for_each_app (l1 l2 : list Z) (body : Z -> M unit) fr :
  for_each (l1 ++ l2) body fr
  = bindM (for_each l1 body) (fun _ => for_each l2 body) fr.
Proof.
  revert fr. induction l1 as [| s l1 IH]; intros fr; [reflexivity |].
  cbn [app for_each]. unfold bindM.
  destruct (body s fr) as [fr1 [e | []]]; [done |].
  rewrite IH. done.
Qed.

(** The first scale from 1 on whose size has no pixel, when there is
    one. *)
Lemma first_without_pixels rows cols (d : nat) :
  has_pixels (scaled_size rows cols (1 + Z.of_nat d)) = false ->
  exists k : Z,
    (1 <= k <= 1 + Z.of_nat d)%Z
    /\ has_pixels (scaled_size rows cols k) = false
    /\ forall j, (1 <= j < k)%Z -> has_pixels (scaled_size rows cols j) = true.
Proof.
  induction d as [| d IH]; intros Hno.
  - exists 1%Z. split; [lia |]. split; [exact Hno |]. intros j Hj. lia.
  - destruct (has_pixels (scaled_size rows cols (1 + Z.of_nat d))) eqn:Hd.
    + exists (1 + Z.of_nat (S d))%Z. split; [lia |]. split; [exact Hno |].
      intros j Hj.
      apply scaled_size_has_pixels in Hd as [Hr Hc].
      apply scaled_size_has_pixels.
      pose proof (sqrt2_pow_increasing j (1 + Z.of_nat d) ltac:(lia)). lra.
    + destruct (IH eq_refl) as (k & Hk & Hnok & Hbefore).
      exists k. split; [lia | done].
Qed.

Section Outcome.

Variable cv2_sepFilter2D : ndarray -> ndarray -> ndarray -> ndarray.
Variable fftconvolve : ndarray -> ndarray -> ndarray.
Variable resample : ndarray -> Z * Z -> interpolation -> ndarray.

Let call := applyMMSI cv2_sepFilter2D fftconvolve resample.

(** The call raises at the first scale whose size has no pixel, after
    printing the line of that scale. *)
Lemma call_raises img filters rows cols k :
  shape img = [rows; cols] -> (1 <= k < nrScales filters)%Z ->
  (forall j, (1 <= j < k)%Z -> has_pixels (scaled_size rows cols j) = true) ->
  has_pixels (scaled_size rows cols k) = false ->
  call img filters
  = (scale_line <$> py_range 0 (k + 1), inl (cv2_error "resize")).
Proof.
  intros Hsh Hk Hbefore Hno. unfold call, applyMMSI.
  rewrite (body_two_dimensions _ _ _ img filters rows cols Hsh).
  unfold scales_then_finalize.
  rewrite (py_range_app 0 k (nrScales filters)) by lia.
  rewrite (py_range_cons k) by lia.
  assert (Forall (fits rows cols) (py_range 0 k)) as Hfits.
  { apply Forall_forall. intros j Hj.
    assert (0 <= j < k)%Z as Hjk.
    { unfold py_range in Hj.
      apply list_elem_of_fmap in Hj as (i & -> & Hi%elem_of_seq). lia. }
    intros Hpos. split; [apply Hbefore; lia |].
    pose proof (Hbefore j ltac:(lia)) as Hj1.
    apply scaled_size_has_pixels in Hj1 as [Hr Hc].
    pose proof (sqrt2_pow_increasing 0 j ltac:(lia)) as H1.
    change (sqrt2_pow 0) with 1 in H1.
    apply has_pixels_spec. split; apply lt_IZR; lra. }
  pose (T := fun _ : R => True).
  assert (forall a, all T a) as HT by (intros a; by apply Forall_true).
  assert (exists fr1,
            for_each (py_range 0 k)
              (scale_pass cv2_sepFilter2D fftconvolve resample filters
                 rows cols) (enter (normalize img)) = (fr1, inr tt)
            /\ stdout fr1 = scale_line <$> py_range 0 k)
    as (fr1 & E1 & Hout1).
  { destruct (for_each_scale cv2_sepFilter2D fftconvolve resample filters
                rows cols T T T) with (n := k) (fr := enter (normalize img))
      as (fr1 & E1 & _ & Hout1); try done; try lia.
    by exists fr1. }
  unfold bindM at 1. rewrite for_each_app.
  rewrite (bindM_inr _ _ _ _ _ E1). cbn [for_each]. unfold bindM at 1.
  rewrite scale_pass_no_pixel by (done || lia).
  cbn [fst snd stdout set_stdout]. rewrite Hout1.
  rewrite (py_range_app 0 k (k + 1)) by lia.
  rewrite (py_range_cons k), (py_range_empty (k + 1) (k + 1)) by lia.
  by rewrite fmap_app.
Qed.

(** A call on a two-dimensional image with at least one scale either
    runs every scale, or stops with [cv2.error] at the first scale from
    1 on at which a side of the image is shorter than [sqrt(2)**s]. *)
Lemma call_returns_or_raises img filters rows cols :
  shape img = [rows; cols] -> (1 <= nrScales filters)%Z ->
  Forall (fits rows cols) (py_range 0 (nrScales filters))
  \/ exists k,
       (1 <= k < nrScales filters)%Z
       /\ (IZR rows < sqrt2_pow k \/ IZR cols < sqrt2_pow k)
       /\ (forall j, (1 <= j < k)%Z ->
             sqrt2_pow j <= IZR rows /\ sqrt2_pow j <= IZR cols)
       /\ call img filters
          = (scale_line <$> py_range 0 (k + 1), inl (cv2_error "resize")).
Proof.
  intros Hsh Hn.
  assert (forall s, {has_pixels (scaled_size rows cols s) = true}
                    + {has_pixels (scaled_size rows cols s) = false}) as Hdec.
  { intros s. destruct (has_pixels (scaled_size rows cols s)); [by left | by right]. }
  destruct (Forall_Exists_dec
              (fun s => has_pixels (scaled_size rows cols s) = true)
              (fun s => has_pixels (scaled_size rows cols s) = false)
              Hdec (py_range 1 (nrScales filters))) as [Hall | Hex].
  - left. rewrite py_range_cons by lia. constructor; [apply fits_0 |].
    apply Forall_forall. intros s Hs.
    assert (1 <= s)%Z by (apply py_range_lower in Hs; lia).
    apply fits_spec; [lia |]. apply scaled_size_has_pixels.
    revert s Hs H. change (0 + 1)%Z with 1%Z.
    intros s Hs _. revert s Hs. by apply Forall_forall.
  - right. apply Exists_exists in Hex as (s & Hs & Hno).
    assert (1 <= s < nrScales filters)%Z as Hsn.
    { unfold py_range in Hs.
      apply list_elem_of_fmap in Hs as (i & -> & Hi%elem_of_seq). lia. }
    destruct (first_without_pixels rows cols (Z.to_nat (s - 1)))
      as (k & Hk & Hnok & Hbefore).
    { by replace (1 + Z.of_nat (Z.to_nat (s - 1)))%Z with s by lia. }
    exists k. split; [lia |]. split; [| split].
    + destruct (Rlt_dec (IZR rows) (sqrt2_pow k)) as [| Hr]; [by left |].
      destruct (Rlt_dec (IZR cols) (sqrt2_pow k)) as [| Hc]; [by right |].
      assert (has_pixels (scaled_size rows cols k) = true) as Hyes
        by (apply scaled_size_has_pixels; lra).
      congruence.
    + intros j Hj. apply (scaled_size_has_pixels rows cols j). by apply Hbefore.
    + apply (call_raises img filters rows cols k); [done | lia | done | done].
Qed.

(** A call that returns ran every scale: the image was two-dimensional,
    there was at least one scale, and every scale fitted. *)
Lemma call_returned img filters out maps :
  call img filters = (out, inr maps) ->
  exists rows cols,
    shape img = [rows; cols] /\ (1 <= nrScales filters)%Z
    /\ Forall (fits rows cols) (py_range 0 (nrScales filters)).
Proof.
  intros Hcall. unfold call in *.
  destruct (shape img) as [| rows [| cols [| d sh]]] eqn:Hsh.
  - destruct (body_few_dimensions cv2_sepFilter2D fftconvolve resample
                img filters) as (msg & E & _);
      [unfold ndim; rewrite Hsh; cbn; lia |].
    unfold applyMMSI in Hcall. rewrite E in Hcall. done.
  - destruct (body_few_dimensions cv2_sepFilter2D fftconvolve resample
                img filters) as (msg & E & _);
      [unfold ndim; rewrite Hsh; cbn; lia |].
    unfold applyMMSI in Hcall. rewrite E in Hcall. done.
  - exists rows, cols. split; [done |].
    destruct (Z_le_gt_dec (nrScales filters) 0) as [Hn | Hn].
    { unfold applyMMSI in Hcall.
      rewrite (body_two_dimensions _ _ _ img filters rows cols Hsh) in Hcall.
      rewrite no_scale in Hcall by done. done. }
    split; [lia |].
    destruct (call_returns_or_raises img filters rows cols Hsh ltac:(lia))
      as [Hfit | (k & _ & _ & _ & Hraise)]; [done |].
    unfold call in Hraise. rewrite Hraise in Hcall. done.
  - rewrite call_many_dimensions in Hcall; [done |].
    unfold ndim. rewrite Hsh. cbn. lia.
Qed.

End Outcome.
(** ** An all-zero image *)

Lemma all_true (P : R -> Prop) a : (forall x, P x) -> all P a.
Proof. intros H. by apply Forall_true. Qed.

Lemma zero_amap f a : f 0 = 0 -> all_zero a -> all_zero (amap f a).
Proof. intros Hf. apply all_amap. by intros x ->. Qed.

Lemma zero_azip f a b :
  f 0 0 = 0 -> all_zero a -> all_zero b -> all_zero (azip f a b).
Proof. intros Hf. apply all_azip. by intros x y -> ->. Qed.

Lemma zero_amul_l a b : all_zero a -> all_zero (a * b)%A.
Proof.
  intros Ha. apply (all_azip (fun x => x = 0) (fun _ => True) (fun x => x = 0) Rmult a b); [| done | by apply all_true].
  intros x y -> _. lra.
Qed.

Lemma zero_amul_r a b : all_zero b -> all_zero (a * b)%A.
Proof.
  intros Hb. apply (all_azip (fun _ => True) (fun x => x = 0) (fun x => x = 0) Rmult a b); [| by apply all_true | done].
  intros x y _ ->. lra.
Qed.

Lemma zero_adiv_l a b : all_zero a -> all_zero (a / b)%A.
Proof.
  intros Ha. apply (all_azip (fun x => x = 0) (fun _ => True) (fun x => x = 0) Rdiv a b); [| done | by apply all_true].
  intros x y -> _. unfold Rdiv. lra.
Qed.

Lemma arctan2_0_0 : arctan2 0 0 = 0.
Proof.
  unfold arctan2.
  destruct (Rlt_dec 0 0); [lra |]. destruct (Rlt_dec 0 0); [lra |].
  destruct (Rlt_dec 0 0); [lra | done].
Qed.

Lemma zero_normalize a : all_zero a -> all_zero (normalize a).
Proof.
  intros Ha. unfold normalize, rescale_uint16, rescale_uint8.
  destruct (dtype a) eqn:E; cbn [dtype adiv_scalar amap farray]; rewrite ?E; try done;
    apply zero_amap; try done; lra.
Qed.

Ltac zeros :=
  repeat first
    [ assumption
    | apply zero_azip; [lra | |]
    | apply zero_amap; [lra |] ].

Lemma zero_orientation J20 J260 J2120 :
  all_zero J20 -> all_zero J260 -> all_zero J2120 ->
  all_zero (orientation J20 J260 J2120).
Proof.
  intros H20 H260 H2120. unfold orientation, adiv_scalar.
  apply zero_amap; [lra |].
  apply zero_azip; [apply arctan2_0_0 | |]; zeros.
Qed.

Lemma zero_steer_second angles J20 J260 J2120 :
  all_zero J20 -> all_zero J260 -> all_zero J2120 ->
  all_zero (steer_second angles J20 J260 J2120).
Proof.
  intros H20 H260 H2120. unfold steer_second, adiv_scalar.
  apply zero_amap; [lra |].
  apply zero_azip; [lra | apply zero_azip; [lra | |] |]; by apply zero_amul_r.
Qed.

Section ZeroImage.

Variable cv2_sepFilter2D : ndarray -> ndarray -> ndarray -> ndarray.
Variable fftconvolve : ndarray -> ndarray -> ndarray.
Variable resample : ndarray -> Z * Z -> interpolation -> ndarray.

(** The filters are linear and the resize interpolates: each of them
    maps an all-zero array to an all-zero array. *)
Hypothesis sepFilter2D_zero : forall src kernelX kernelY,
  all_zero src -> all_zero (cv2_sepFilter2D src kernelX kernelY).
Hypothesis fftconvolve_zero : forall in1 in2,
  all_zero in1 -> all_zero (fftconvolve in1 in2).
Hypothesis resize_zero : forall src dsize interp,
  all_zero src -> all_zero (resample src dsize interp).

(** The filters return an array of the size of their input, and resizing
    an array that has pixels to a size that has pixels gives that size. *)
Hypothesis sepFilter2D_sized : forall rows cols src kernelX kernelY,
  sized rows cols src -> sized rows cols (cv2_sepFilter2D src kernelX kernelY).
Hypothesis fftconvolve_sized : forall rows cols in1 in2,
  sized rows cols in1 -> sized rows cols (fftconvolve in1 in2).
Hypothesis resize_sized : forall rows cols src width height interp,
  sized rows cols src -> (1 <= rows)%Z -> (1 <= cols)%Z ->
  (1 <= width)%Z -> (1 <= height)%Z ->
  sized height width (resample src (width, height) interp).

Lemma zero_scale_response filters img :
  all_zero img ->
  all_zero (scale_response cv2_sepFilter2D fftconvolve filters img).1
  /\ all_zero (scale_response cv2_sepFilter2D fftconvolve filters img).2.
Proof.
  intros Himg. unfold scale_response. cbn [fst snd].
  set (I := (img - _)%A).
  assert (all_zero I) as HI.
  { apply zero_azip; [lra | done | by apply sepFilter2D_zero]. }
  split.
  - apply zero_amap; [lra |].
    unfold setitem_mask_scalar, all_zero, all. cbn [data].
    apply Forall_place_scalar; [| done].
    apply zero_adiv_l, zero_amul_r, zero_steer_second;
      by apply fftconvolve_zero.
  - apply zero_orientation; by apply fftconvolve_zero.
Qed.

Lemma zero_upsampled_response filters rows cols s img :
  all_zero img ->
  all_zero (upsampled_response cv2_sepFilter2D fftconvolve resample
              filters rows cols s img).1
  /\ all_zero (upsampled_response cv2_sepFilter2D fftconvolve resample
                 filters rows cols s img).2.
Proof.
  intros Himg. unfold upsampled_response.
  destruct (zero_scale_response filters img Himg) as [Hr Ha].
  destruct (scale_response _ _ _ _) as [r a]. cbn [fst snd] in *.
  destruct (0 <? s)%Z; cbn [fst snd]; split; auto.
Qed.


End ZeroImage.
(** ** The orientation map *)

Lemma orientation_in_half_turn J20 J260 J2120 :
  all in_half_turn (orientation J20 J260 J2120).
Proof.
  unfold orientation, adiv_scalar.
  apply (all_amap (fun v => - PI < v <= PI)).
  { intros x Hx. unfold in_half_turn. lra. }
  apply (all_azip (fun _ => True) (fun _ => True)); [| by apply all_true ..].
  intros y x _ _. apply arctan2_range.
Qed.

Section Orientation.

Variable cv2_sepFilter2D : ndarray -> ndarray -> ndarray -> ndarray.
Variable fftconvolve : ndarray -> ndarray -> ndarray.
Variable resample : ndarray -> Z * Z -> interpolation -> ndarray.

(** Nearest-neighbour resizing copies pixels of the source: every value
    of the result is a value of the source. *)
Hypothesis resize_nearest : forall src dsize x,
  x ∈ data (resample src dsize INTER_NEAREST) -> x ∈ data src.

(** The filters return an array of the size of their input, and resizing
    an array that has pixels to a size that has pixels gives that size. *)
Hypothesis sepFilter2D_sized : forall rows cols src kernelX kernelY,
  sized rows cols src -> sized rows cols (cv2_sepFilter2D src kernelX kernelY).
Hypothesis fftconvolve_sized : forall rows cols in1 in2,
  sized rows cols in1 -> sized rows cols (fftconvolve in1 in2).
Hypothesis resize_sized : forall rows cols src width height interp,
  sized rows cols src -> (1 <= rows)%Z -> (1 <= cols)%Z ->
  (1 <= width)%Z -> (1 <= height)%Z ->
  sized height width (resample src (width, height) interp).

Lemma upsampled_in_half_turn filters rows cols s img :
  all in_half_turn
    (upsampled_response cv2_sepFilter2D fftconvolve resample
       filters rows cols s img).2.
Proof.
  unfold upsampled_response, scale_response.
  destruct (0 <? s)%Z; cbn [fst snd]; [| apply orientation_in_half_turn].
  apply Forall_forall. intros x Hx%resize_nearest. revert x Hx.
  apply Forall_forall, orientation_in_half_turn.
Qed.

(** Over scales that fit, the orientations of the map a call returns are
    orientations of the scales. *)
Lemma returned_orientation_in_half_turn img filters rows cols :
  shape img = [rows; cols] -> (1 <= nrScales filters)%Z ->
  Forall (fits rows cols) (py_range 0 (nrScales filters)) ->
  exists psi_out width_out orient_out,
    applyMMSI cv2_sepFilter2D fftconvolve resample img filters =
      (scale_line <$> py_range 0 (nrScales filters),
       inr (psi_out, width_out, orient_out))
    /\ all in_half_turn orient_out.
Proof.
  intros Hsh Hn Hfit.
  pose (T := fun _ : R => True).
  assert (forall a, all T a) as HT by (intros a; by apply all_true).
  destruct (for_each_scale cv2_sepFilter2D fftconvolve resample filters
              rows cols T T in_half_turn)
    with (n := nrScales filters) (fr := enter (normalize img))
    as (fr1 & E1 & Hrun & Hout1);
    try done; try (intros; apply upsampled_in_half_turn).
  destruct (finalize_running T T in_half_turn) with (fr := fr1)
    as (fr2 & p & w & o & E2 & _ & _ & Ho & Hout2); try done.
  exists p, w, o. split; [| exact Ho].
  unfold applyMMSI.
  rewrite (body_two_dimensions _ _ _ img filters rows cols Hsh).
  unfold scales_then_finalize.
  rewrite (bindM_inr _ _ _ _ _ E1), E2. by rewrite Hout2, Hout1.
Qed.


End Orientation.

(** ** The three maps *)

(** *** The response of one scale *)

Lemma suppressed_nonnegative (d : list R) :
  Forall (fun x => 0 <= x)
    (Ropp <$> place_scalar ((fun x => Rgtb x 0) <$> d) 0 d).
Proof.
  induction d as [| x d IH]; [constructor |].
  cbn. constructor; [| exact IH].
  unfold Rgtb. destruct (Rlt_dec 0 x); lra.
Qed.

Lemma response_nonnegative
    (cv2_sepFilter2D : ndarray -> ndarray -> ndarray -> ndarray)
    (fftconvolve : ndarray -> ndarray -> ndarray)
    (filters : SingularityIndexFilters) (img : ndarray) :
  Forall (fun x => 0 <= x)
    (data (scale_response cv2_sepFilter2D fftconvolve filters img).1).
Proof.
  unfold scale_response.
  cbn [fst aneg amap setitem_mask_scalar data farray agt0].
  apply suppressed_nonnegative.
Qed.

(** X6: whatever the filters return, the response of a scale is nowhere
    negative: positive values of the index are set to zero before the
    sign is changed. *)
Theorem scale_response_nonnegative
    (cv2_sepFilter2D : ndarray -> ndarray -> ndarray -> ndarray)
    (fftconvolve : ndarray -> ndarray -> ndarray)
    (filters : SingularityIndexFilters) (img : ndarray) :
  all (fun x => 0 <= x) (scale_response cv2_sepFilter2D fftconvolve filters img).1.
Proof.
  unfold all, scale_response.
  cbn [fst aneg amap setitem_mask_scalar data farray agt0].
  apply suppressed_nonnegative.
Qed.

Lemma sqrt_square_nonnegative (d : list R) :
  Forall (fun x => 0 <= x) d -> sqrt <$> ((fun x => x ^ 2) <$> d) = d.
Proof.
  induction 1 as [| x d Hx _ IH]; [done |].
  cbn [fmap list_fmap] in *. rewrite IH. f_equal.
  replace (x ^ 2) with (x * x) by lra. by apply sqrt_square.
Qed.

Lemma width_of_one_scale (m : R) (d : list R) :
  Forall (fun x => 0 <= x) d ->
  place ((fun x => Rgtb x 0) <$> d)
    (zip_with Rdiv
       (compress ((fun x => Rgtb x 0) <$> d) (Rmult m <$> d))
       (compress ((fun x => Rgtb x 0) <$> d) d))
    (Rmult m <$> d)
  = (fun x => if Rgtb x 0 then m else 0) <$> d.
Proof.
  induction 1 as [| x d Hx _ IH]; [done |].
  cbn [fmap list_fmap] in *.
  destruct (Rgtb x 0) eqn:Hpos; cbn [compress place zip_with]; rewrite IH; f_equal.
  - apply Rgtb_spec in Hpos. field. lra.
  - assert (~ 0 < x) as Hnon by (rewrite <- Rgtb_spec; congruence).
    replace x with 0 by lra. lra.
Qed.

Section Maps.

Variable cv2_sepFilter2D : ndarray -> ndarray -> ndarray -> ndarray.
Variable fftconvolve : ndarray -> ndarray -> ndarray.
Variable resample : ndarray -> Z * Z -> interpolation -> ndarray.

Let call := applyMMSI cv2_sepFilter2D fftconvolve resample.
Let outputs := scale_outputs cv2_sepFilter2D fftconvolve resample.


Lemma call_pixel img filters rows cols (i : nat) :
  shape img = [rows; cols] -> (1 <= nrScales filters)%Z ->
  sqrt2_pow (nrScales filters - 1) <= IZR rows ->
  sqrt2_pow (nrScales filters - 1) <= IZR cols ->
  covers i (outputs filters rows cols (py_range 0 (nrScales filters))
              (normalize img)) ->
  exists p0 rest r0 a0,
    outputs filters rows cols (py_range 0 (nrScales filters)) (normalize img)
    = p0 :: rest
    /\ call img filters
       = (scale_line <$> py_range 0 (nrScales filters),
          inr (finish (totals_from filters p0 rest)))
    /\ response_of p0 !! i = Some r0 /\ angles_of p0 !! i = Some a0
    /\ covers i rest.
Proof.
  intros Hsh Hn Hr Hc Hall.
  destruct (call_fold cv2_sepFilter2D fftconvolve resample img filters
              rows cols Hsh Hn (fits_range _ _ _ Hr Hc))
    as (fr & _ & _ & Hcall).
  unfold outputs in *.
  rewrite (outputs_range _ _ _ filters rows cols _ _ Hn) in Hall |- *.
  apply Forall_cons in Hall as [[[r0 Hr0] [a0 Ha0]] Hall].
  do 4 eexists. split; [reflexivity |].
  split; [exact Hcall |]. done.
Qed.




(** X5: whatever the image and the filter bank, the response magnitude a call
    returns is nowhere negative. *)
Theorem response_magnitude_nonnegative img filters out psi_out width_out
    orient_out :
  call img filters = (out, inr (psi_out, width_out, orient_out)) ->
  Forall (fun x => 0 <= x) (data psi_out).
Proof.
  intros Hcall.
  destruct (call_returned cv2_sepFilter2D fftconvolve resample
              img filters out _ Hcall) as (rows & cols & Hsh & Hn & Hfit).
  destruct (call_fold cv2_sepFilter2D fftconvolve resample img filters
              rows cols Hsh Hn Hfit) as (fr & _ & _ & Hfold).
  unfold call in Hcall. rewrite Hcall in Hfold. unfold finish in Hfold.
  injection Hfold as _ -> _ _.
  cbn [asqrt amap data farray]. apply Forall_fmap, Forall_true.
  intros x. apply sqrt_pos.
Qed.

(** X7: with a single scale the call returns the response of scale 0 as the
    response magnitude, the orientation of scale 0 as the orientation
    map, and a width map that is [minScale] where the response is
    positive and zero elsewhere. *)
Theorem single_scale_maps img filters rows cols :
  shape img = [rows; cols] -> (1 <= rows)%Z -> (1 <= cols)%Z ->
  nrScales filters = 1%Z ->
  exists psi_out width_out orient_out,
    call img filters
    = ([scale_line 0], inr (psi_out, width_out, orient_out))
    /\ data psi_out
       = data (scale_response cv2_sepFilter2D fftconvolve filters
                 (normalize img)).1
    /\ data width_out
       = (fun x => if Rgtb x 0 then minScale filters else 0)
         <$> data (scale_response cv2_sepFilter2D fftconvolve filters
                     (normalize img)).1
    /\ orient_out
       = (scale_response cv2_sepFilter2D fftconvolve filters
            (normalize img)).2.
Proof.
  intros Hsh _ _ Hn.
  destruct (call_fold cv2_sepFilter2D fftconvolve resample img filters
              rows cols Hsh ltac:(lia)) as (fr & _ & _ & Hcall).
  { rewrite Hn, (py_range_cons 0 1), (py_range_empty (0 + 1) 1) by lia.
    constructor; [apply fits_0 | constructor]. }
  rewrite Hn in Hcall.
  rewrite (py_range_empty 1 1) in Hcall by lia.
  rewrite (py_range_cons 0 1), (py_range_empty (0 + 1) 1) in Hcall by lia.
  cbn [scale_outputs fmap list_fmap] in Hcall.
  unfold totals_from, finish, scale_0 in Hcall. cbn [foldl] in Hcall.
  pose proof (response_nonnegative cv2_sepFilter2D fftconvolve filters
                (normalize img)) as Hpos.
  set (r := (scale_response cv2_sepFilter2D fftconvolve filters
               (normalize img)).1) in *.
  do 3 eexists. split; [exact Hcall |].
  cbn [first_totals t_psi t_width t_orient t_max t_sum sum_array default
       from_option Datatypes.id fst snd
       asqrt asquare ascale amap adiv azip setitem_mask getitem_mask
       agt0 data farray].
  split; [by apply sqrt_square_nonnegative |]. split; [| done].
  unfold sqrt2_pow. cbn [Z.to_nat pow]. rewrite Rmult_1_r.
  by apply width_of_one_scale.
Qed.



(** X11: an image of fewer than two dimensions fails at the unpacking of its
    shape, before the loop, whatever the filter bank: nothing is
    printed. *)
Theorem applyMMSI_few_dimensions img filters :
  (ndim img = 0%nat ->
   call img filters
   = ([], inl (ValueError "need more than 0 values to unpack")))
  /\ (ndim img = 1%nat ->
      call img filters
      = ([], inl (ValueError "need more than 1 value to unpack"))).
Proof.
  unfold call, applyMMSI, applyMMSI_body, ndim.
  split; intros Hd; cbn -[normalize]; unfold ndim, unpack_shape;
    rewrite shape_normalize;
    destruct (shape img) as [| rows [| cols [| d sh]]]; done.
Qed.

End Maps.
(** ** The concrete backend meets the assumptions *)

Lemma backend_resize_elem src dsize interp x :
  x ∈ data (Backend.resize src dsize interp) -> x ∈ data src.
Proof.
  unfold Backend.resize.
  destruct (shape src) as [| rows [| cols [| d sh]]]; try done.
  cbn [data farray]. intros (k & _ & Hk)%list_elem_of_omap.
  by eapply list_elem_of_lookup_2.
Qed.

Lemma backend_resize_zero src dsize interp :
  all_zero src -> all_zero (Backend.resize src dsize interp).
Proof.
  intros Hz. apply Forall_forall. intros x Hx%backend_resize_elem.
  revert x Hx. by apply Forall_forall.
Qed.

Lemma backend_sepFilter2D_zero src kernelX kernelY :
  all_zero src -> all_zero (Backend.sepFilter2D src kernelX kernelY).
Proof.
  intros Hz. unfold Backend.sepFilter2D.
  apply (zero_amap (fun v => v * _) src); [lra | done].
Qed.

Lemma backend_fftconvolve_zero in1 in2 :
  all_zero in1 -> all_zero (Backend.fftconvolve in1 in2).
Proof.
  intros Hz. unfold Backend.fftconvolve.
  apply (zero_amap (fun v => v * _) in1); [lra | done].
Qed.

(** The backend keeps sizes. *)

Lemma backend_sepFilter2D_sized rows cols src kernelX kernelY :
  sized rows cols src ->
  sized rows cols (Backend.sepFilter2D src kernelX kernelY).
Proof. intros H. unfold Backend.sepFilter2D. by apply (sized_amap _ _ _ src). Qed.

Lemma backend_fftconvolve_sized rows cols in1 in2 :
  sized rows cols in1 -> sized rows cols (Backend.fftconvolve in1 in2).
Proof. intros H. unfold Backend.fftconvolve. by apply (sized_amap _ _ _ in1). Qed.

Lemma length_omap_total {A B} (f : A -> option B) (l : list A) :
  Forall (fun x => is_Some (f x)) l -> length (omap f l) = length l.
Proof.
  induction 1 as [| x l [y Hy] _ IH]; [done |].
  cbn. rewrite Hy. cbn. by rewrite IH.
Qed.

Lemma source_index_in_range rows cols width height (k : nat) :
  (1 <= rows)%Z -> (1 <= cols)%Z -> (1 <= width)%Z -> (1 <= height)%Z ->
  (k < Z.to_nat (height * width))%nat ->
  (Backend.source_index rows cols width height k < Z.to_nat (rows * cols))%nat.
Proof.
  intros Hr Hc Hw Hh Hk. unfold Backend.source_index.
  assert (0 <= Z.of_nat k < height * width)%Z as Hkz by lia.
  assert (0 <= Z.of_nat k / width < height)%Z as Hi.
  { split; [apply Z.div_pos; lia |].
    apply Z.div_lt_upper_bound; lia. }
  assert (0 <= Z.of_nat k mod width < width)%Z as Hj
    by (apply Z.mod_pos_bound; lia).
  set (i := (Z.of_nat k / width)%Z) in *.
  set (j := (Z.of_nat k mod width)%Z) in *.
  assert (0 <= i * rows / height < rows)%Z as Hy.
  { split; [apply Z.div_pos; nia |].
    apply Z.div_lt_upper_bound; nia. }
  assert (0 <= j * cols / width < cols)%Z as Hx.
  { split; [apply Z.div_pos; nia |].
    apply Z.div_lt_upper_bound; nia. }
  apply Z2Nat.inj_lt; nia.
Qed.

Lemma backend_resize_sized rows cols src width height interp :
  sized rows cols src -> (1 <= rows)%Z -> (1 <= cols)%Z ->
  (1 <= width)%Z -> (1 <= height)%Z ->
  sized height width (Backend.resize src (width, height) interp).
Proof.
  intros [Hs Hl] Hr Hc Hw Hh. unfold Backend.resize. rewrite Hs.
  cbn [fst snd]. split; [done |].
  cbn [data farray]. rewrite length_omap_total; [by rewrite length_seq |].
  apply Forall_forall. intros k Hk%elem_of_seq.
  apply lookup_lt_is_Some. rewrite Hl.
  apply source_index_in_range; try done. lia.
Qed.


Lemma sqrt2_pow_1_le_2 : sqrt2_pow (2 - 1) <= 2.
Proof.
  change (sqrt2_pow (2 - 1)) with (sqrt 2 * 1). rewrite Rmult_1_r.
  replace 2 with (sqrt (2 * 2)) at 2 by (apply sqrt_square; lra).
  apply sqrt_le_1_alt. lra.
Qed.

Lemma sqrt2_pow_1_gt_1 : 1 < sqrt2_pow 1.
Proof.
  change (sqrt2_pow 1) with (sqrt 2 * 1). rewrite Rmult_1_r.
  rewrite <- sqrt_1 at 1. apply sqrt_lt_1_alt. lra.
Qed.

Lemma sized_two_by_two a b c d : sized 2 2 (two_by_two a b c d).
Proof. by split. Qed.

(** With the bank [Backend.taps] the orientation of a pixel that is not
    zero is negative: it is not the orientation [arctan2(0, 0)/2 = 0] of
    a flat image. *)
Lemma arctan2_third_quadrant y x : y < 0 -> x < 0 -> arctan2 y x < - (PI / 2).
Proof.
  intros Hy Hx. unfold arctan2.
  destruct (Rlt_dec 0 x); [lra |]. destruct (Rlt_dec x 0); [| lra].
  destruct (Rle_dec 0 y); [lra |].
  pose proof (atan_bound (y / x)). lra.
Qed.

Lemma backend_taps_angles_negative ms n img :
  Forall (fun v => v <> 0) (data img) ->
  Forall (fun a => a < 0)
    (data (scale_response Backend.sepFilter2D Backend.fftconvolve
             (Backend.taps ms n) img).2).
Proof.
  destruct img as [dt sh d]. cbn [data]. intros Hd.
  unfold scale_response, orientation, Backend.sepFilter2D,
    Backend.fftconvolve, Backend.gain, Backend.taps, Backend.pixel.
  cbn [snd G20 G260 G2120 Gdebias transpose data farray shape foldr
       asub adiv_scalar azip amap ascale asquare aadd amul].
  induction Hd as [| v d Hv _ IH]; [constructor |].
  cbn [fmap list_fmap zip_with]. constructor; [| exact IH].
  assert (0 < v * v) as Hvv by nra.
  assert (0 < sqrt 3) as H3 by (apply sqrt_lt_R0; lra).
  pose proof PI_RGT_0.
  match goal with
  | |- arctan2 ?y ?x / 2 < 0 =>
      assert (y < 0) as Hy by nra; assert (x < 0) as Hx by nra;
      pose proof (arctan2_third_quadrant y x Hy Hx)
  end.
  lra.
Qed.

Lemma backend_orientation_negative ms n img rows cols :
  dtype img = float64 -> Forall (fun v => v <> 0) (data img) ->
  shape img = [rows; cols] -> (1 <= n)%Z ->
  Forall (fits rows cols) (py_range 0 n) ->
  exists psi_out width_out orient_out,
    applyMMSI Backend.sepFilter2D Backend.fftconvolve Backend.resize
      img (Backend.taps ms n)
    = (scale_line <$> py_range 0 n, inr (psi_out, width_out, orient_out))
    /\ Forall (fun a => a < 0) (data orient_out).
Proof.
  intros Hdt Himg Hsh Hn Hfit.
  pose (T := fun _ : R => True).
  assert (forall a, all T a) as HT by (intros a; by apply all_true).
  destruct (for_each_scale Backend.sepFilter2D Backend.fftconvolve
              Backend.resize (Backend.taps ms n) rows cols
              (fun v => v <> 0) T (fun a => a < 0))
    with (n := n) (fr := enter (normalize img))
    as (fr1 & E1 & Hrun & Hout1); try done.
  - intros a dsize Ha. apply Forall_forall.
    intros x Hx%backend_resize_elem. revert x Hx. by apply Forall_forall.
  - intros s a Ha. unfold upsampled_response.
    pose proof (backend_taps_angles_negative ms n a Ha) as Hneg.
    destruct (scale_response _ _ _ a) as [r an]. cbn [snd] in Hneg.
    destruct (0 <? s)%Z; cbn [snd]; [| exact Hneg].
    apply Forall_forall. intros x Hx%backend_resize_elem.
    revert x Hx. by apply Forall_forall.
  - by rewrite normalize_float.
  - destruct (finalize_running (fun v => v <> 0) T (fun a => a < 0))
      with (fr := fr1) as (fr2 & p & w & o & E2 & _ & _ & Ho & Hout2);
      try done.
    exists p, w, o. split; [| exact Ho].
    unfold applyMMSI.
    rewrite (body_two_dimensions _ _ _ img _ rows cols Hsh).
    unfold scales_then_finalize.
    rewrite (bindM_inr _ _ _ _ _ E1), E2. by rewrite Hout2, Hout1.
Qed.

Section MapSizes.

Variable cv2_sepFilter2D : ndarray -> ndarray -> ndarray -> ndarray.
Variable fftconvolve : ndarray -> ndarray -> ndarray.
Variable resample : ndarray -> Z * Z -> interpolation -> ndarray.

Hypothesis sepFilter2D_sized : forall rows cols src kernelX kernelY,
  sized rows cols src -> sized rows cols (cv2_sepFilter2D src kernelX kernelY).
Hypothesis fftconvolve_sized : forall rows cols in1 in2,
  sized rows cols in1 -> sized rows cols (fftconvolve in1 in2).
Hypothesis resize_sized : forall rows cols src width height interp,
  sized rows cols src -> (1 <= rows)%Z -> (1 <= cols)%Z ->
  (1 <= width)%Z -> (1 <= height)%Z ->
  sized height width (resample src (width, height) interp).


End MapSizes.

(** ** A zero image too small for the scales *)


(** ** The theorems at concrete inputs *)

Lemma C3_unsupported_shape_iff_more_than_two_dimensions_witness :
  (applyMMSI Backend.sepFilter2D Backend.fftconvolve Backend.resize
     (farray [1%Z; 1%Z; 3%Z] [0; 0; 0]) (Backend.one_tap 1.5 15)).2
  = inl unsupported_shape.
Proof.
  apply (C3_unsupported_shape_iff_more_than_two_dimensions
           Backend.sepFilter2D Backend.fftconvolve Backend.resize).
  cbn. lia.
Defined.


Lemma C6_width_divided_only_where_sum_positive_witness :
  exists fr' psi_out width_out orient_out,
    finalize
      {| I1 := Backend.pixel 0;
         store := [farray [1%Z; 2%Z] [6; 5]; farray [1%Z; 2%Z] [2; 0];
                   farray [1%Z; 2%Z] [4; 0]; farray [1%Z; 2%Z] [0; 0]];
         vars := bound_to 1%nat 1%nat 3%nat 0%nat 2%nat;
         stdout := [] |} = (fr', inr (psi_out, width_out, orient_out))
    /\ data width_out !! 0%nat = Some (6 / 2)
    /\ data width_out !! 1%nat = Some 5.
Proof.
  destruct (C6_width_divided_only_where_sum_positive
              {| I1 := Backend.pixel 0;
                 store := [farray [1%Z; 2%Z] [6; 5]; farray [1%Z; 2%Z] [2; 0];
                           farray [1%Z; 2%Z] [4; 0]; farray [1%Z; 2%Z] [0; 0]];
                 vars := bound_to 1%nat 1%nat 3%nat 0%nat 2%nat;
                 stdout := [] |}
              0%nat 1%nat 2%nat 3%nat
              (farray [1%Z; 2%Z] [6; 5]) (farray [1%Z; 2%Z] [2; 0])
              eq_refl eq_refl eq_refl eq_refl eq_refl eq_refl)
    as (_ & fr' & p & w & o & E & _ & _ & Hpixel).
  exists fr', p, w, o. split; [exact E |]. split.
  - destruct (Hpixel 0%nat 6 2 eq_refl eq_refl) as [Hpos _]. apply Hpos. lra.
  - destruct (Hpixel 1%nat 5 0 eq_refl eq_refl) as [_ Hnon]. apply Hnon. lra.
Defined.


Lemma C8_unsigned_inputs_are_rescaled_witness :
  applyMMSI Backend.sepFilter2D Backend.fftconvolve Backend.resize
    {| dtype := uint8; shape := [2%Z; 2%Z]; data := [255; 0; 51; 102] |}
    (Backend.taps 1.5 2)
  = applyMMSI Backend.sepFilter2D Backend.fftconvolve Backend.resize
      (two_by_two 1 0 0.2 0.4) (Backend.taps 1.5 2)
  /\ applyMMSI Backend.sepFilter2D Backend.fftconvolve Backend.resize
       {| dtype := uint16; shape := [2%Z; 2%Z];
          data := [65535; 0; 13107; 26214] |}
       (Backend.taps 1.5 2)
     = applyMMSI Backend.sepFilter2D Backend.fftconvolve Backend.resize
         (two_by_two 1 0 0.2 0.4) (Backend.taps 1.5 2).
Proof.
  apply (C8_unsigned_inputs_are_rescaled
           Backend.sepFilter2D Backend.fftconvolve Backend.resize
           {| dtype := uint8; shape := [2%Z; 2%Z]; data := [255; 0; 51; 102] |}
           {| dtype := uint16; shape := [2%Z; 2%Z];
              data := [65535; 0; 13107; 26214] |}
           (two_by_two 1 0 0.2 0.4) (Backend.taps 1.5 2));
    try reflexivity; cbn; repeat (f_equal; try lra).
Defined.

Lemma C10_no_scale_fails_when_finalizing_witness :
  (nrScales (Backend.one_tap 1.5 0) <= 0)%Z
  /\ applyMMSI Backend.sepFilter2D Backend.fftconvolve Backend.resize
       (Backend.pixel 0.5) (Backend.one_tap 1.5 0)
     = ([], inl (UnboundLocalError "widthMap")).
Proof.
  split; [cbn; lia |].
  apply (C10_no_scale_fails_when_finalizing
           Backend.sepFilter2D Backend.fftconvolve Backend.resize
           (Backend.pixel 0.5) (Backend.one_tap 1.5 0));
    [cbn; lia | reflexivity].
Defined.

Lemma backend_covers a b c d :
  covers 0
    (scale_outputs Backend.sepFilter2D Backend.fftconvolve Backend.resize
       (Backend.taps 1.5 2) 2 2 (py_range 0 2)
       (normalize (two_by_two a b c d))).
Proof.
  apply (all_outputs_cover Backend.sepFilter2D Backend.fftconvolve
           Backend.resize backend_sepFilter2D_sized
           backend_fftconvolve_sized backend_resize_sized
           (Backend.taps 1.5 2) 2 2).
  - apply sized_normalize, sized_two_by_two.
  - lia.
  - lia.
  - cbn. lia.
  - exact sqrt2_pow_1_le_2.
  - exact sqrt2_pow_1_le_2.
  - cbn. lia.
Qed.





Lemma response_magnitude_nonnegative_witness :
  exists psi_out width_out orient_out,
    applyMMSI Backend.sepFilter2D Backend.fftconvolve Backend.resize
      (two_by_two 0.1 0.2 0.3 0.4) (Backend.taps 1.5 2)
    = (scale_line <$> py_range 0 2, inr (psi_out, width_out, orient_out))
    /\ Forall (fun x => 0 <= x) (data psi_out).
Proof.
  destruct (call_sized Backend.sepFilter2D Backend.fftconvolve Backend.resize
              backend_sepFilter2D_sized backend_fftconvolve_sized
              backend_resize_sized (two_by_two 0.1 0.2 0.3 0.4)
              (Backend.taps 1.5 2) 2 2 (sized_two_by_two _ _ _ _)
              ltac:(cbn; lia) sqrt2_pow_1_le_2 sqrt2_pow_1_le_2)
    as (fr & sum & p & w & o & _ & _ & _ & Hcall & _).
  exists p, w, o. split; [exact Hcall |].
  exact (response_magnitude_nonnegative Backend.sepFilter2D
           Backend.fftconvolve Backend.resize (two_by_two 0.1 0.2 0.3 0.4)
           (Backend.taps 1.5 2) _ p w o Hcall).
Defined.

Lemma single_scale_maps_witness :
  exists psi_out width_out orient_out,
    applyMMSI Backend.sepFilter2D Backend.fftconvolve Backend.resize
      (two_by_two 0.1 0.2 0.3 0.4) (Backend.taps 1.5 1)
    = ([scale_line 0], inr (psi_out, width_out, orient_out))
    /\ data width_out
       = (fun x => if Rgtb x 0 then 1.5 else 0)
         <$> data (scale_response Backend.sepFilter2D Backend.fftconvolve
                     (Backend.taps 1.5 1)
                     (normalize (two_by_two 0.1 0.2 0.3 0.4))).1.
Proof.
  destruct (single_scale_maps Backend.sepFilter2D Backend.fftconvolve
              Backend.resize (two_by_two 0.1 0.2 0.3 0.4)
              (Backend.taps 1.5 1) 2 2)
    as (psi_out & width_out & orient_out & Hcall & _ & Hw & _);
    [reflexivity | lia | lia | reflexivity |].
  by exists psi_out, width_out, orient_out.
Defined.



